(** * rw-locations-populator-for-hec: the loader, the sequencer and the
      publisher of [index.js], embedded and verified.

    The script reads [rwanda_locations.csv] with csv-parser, sorts the rows
    by administrative level and posts them one by one with axios.  The
    embedding follows the three functions of the file: [readCsvFile],
    [populateLocations] and [main].

    Conventions.
    - A JavaScript string is the list of its UTF-16 code units.
    - A row is the object csv-parser builds: a finite map from header names
      to cell strings.  A row need not have every column: a line with fewer
      cells than the header lacks the last keys, and a blank line has no
      cell at all.  The comparator of line 67 is written for such rows.
    - A computation that can throw returns a [completion].
    - Console output, requests and pauses are recorded in a trace of
      [event]s, in program order. *)

From Stdlib Require Import ZArith Lia Ascii String.
From stdpp Require Import base option list gmap strings sorting.

Open Scope Z_scope.

(** ** Strings *)

Module JsString.

Abbreviation jsstring := (list N).

(** An ASCII literal as a JavaScript string. *)
Definition js (s : string) : jsstring :=
  (λ a, N_of_ascii a) <$> list_ascii_of_string s.

(** WhiteSpace and LineTerminator code points of ECMAScript, the ones
    [String.prototype.trim] removes.  All of them are single code units. *)
Definition is_whitespace (c : N) : bool :=
  bool_decide (c ∈ [0x09; 0x0A; 0x0B; 0x0C; 0x0D; 0x20; 0xA0; 0x1680;
                    0x2028; 0x2029; 0x202F; 0x205F; 0x3000; 0xFEFF]%N)
  || ((0x2000 <=? c)%N && (c <=? 0x200A)%N).

Fixpoint trimStart (s : jsstring) : jsstring :=
  match s with
  | c :: s' => if is_whitespace c then trimStart s' else s
  | [] => []
  end.

Definition trimEnd (s : jsstring) : jsstring :=
  reverse (trimStart (reverse s)).

(** [s.trim()] *)
Definition trim (s : jsstring) : jsstring := trimEnd (trimStart s).

(** Upper-casing of the ASCII letters, other code units unchanged.
    [String.prototype.toUpperCase] acts like this on ASCII strings. *)
Definition ascii_upper (c : N) : N :=
  if ((0x61 <=? c) && (c <=? 0x7A))%N then (c - 0x20)%N else c.

Definition is_ascii (c : N) : bool := (c <? 0x80)%N.

Definition toUpperCase_ascii_only (s : jsstring) : jsstring :=
  ascii_upper <$> s.

End JsString.
Export JsString.

(** ** Completions *)

Inductive exn :=
  | TypeError
  | URIError
  | StreamError (code : N).

Inductive completion (A : Type) :=
  | Normal (a : A)
  | Throw (e : exn).
Arguments Normal {A} a.
Arguments Throw {A} e.

Definition cbind {A B} (c : completion A) (k : A → completion B) : completion B :=
  match c with
  | Normal a => k a
  | Throw e => Throw e
  end.

Notation "x ←! c ; k" := (cbind c (λ x, k))
  (at level 20, c at level 100, k at level 200, right associativity,
   format "x  ←!  c ;  '/' k").

(** A computation that prints while it runs: what it has printed, and how
    it ended.  After an exception nothing more is run. *)
Definition tbind {E A B} (c : list E * completion A)
    (k : A → list E * completion B) : list E * completion B :=
  match c with
  | (t, Normal a) => let '(t', r) := k a in (t ++ t', r)
  | (t, Throw e) => (t, Throw e)
  end.

Notation "x ←* c ; k" := (tbind c (λ x, k))
  (at level 20, c at level 100, k at level 200, right associativity,
   format "x  ←*  c ;  '/' k").

(** ** Array.prototype.indexOf and Array.prototype.sort *)

Module JsArray.

Fixpoint indexOf_from (xs : list jsstring) (x : jsstring) (i : Z) : Z :=
  match xs with
  | [] => -1
  | y :: ys => if decide (y = x) then i else indexOf_from ys x (i + 1)
  end.

(** [xs.indexOf(x)]: the first index holding [x], or [-1]. *)
Definition indexOf (xs : list jsstring) (x : jsstring) : Z :=
  indexOf_from xs x 0.

(** What a comparator hands back to [sort]: a number, or [undefined] when
    its body ends without [return]. *)
Inductive cmp_result :=
  | Num (z : Z)
  | Undefined.

(** ToNumber of the comparator's value; NaN counts as [+0]. *)
Definition cmp_number (v : cmp_result) : Z :=
  match v with
  | Num z => z
  | Undefined => 0
  end.

(** [arr.sort(comparefn)].  ECMAScript asks for a stable sort; when the
    comparator is consistent on the elements that fixes the result, and
    otherwise the order is left to the engine.  The script runs on Node.js,
    whose engine sorts with TimSort: the run found at the front of the
    array, reversed if it is strictly descending, is extended by binary
    insertion up to the minimum run length, which below 64 elements is the
    length of the array.  That is the algorithm below: it is the engine's
    for an array of fewer than 64 elements.  Longer arrays are cut into
    several such runs that are then merged; for a consistent comparator the
    result is the same, the only list that is sorted and stable, and for
    another comparator it need not be.  [short] is the bound. *)
Definition short {A} (l : list A) : Prop := (length l < 64)%nat.

Section sort.
Context {A E : Type}.

(** A call of the comparator: it may print, and it may throw, which ends
    the sort and is passed on; otherwise its value is read as a number. *)
Definition call_comparefn
    (comparefn : A → A → list E * completion cmp_result) (x y : A)
    : list E * completion Z :=
  v ←* comparefn x y; ([], Normal (cmp_number v)).

(** How far the run that starts with [previous] goes on into [rest]: as
    long as each element is not below the one before it, or, for a
    descending run, strictly below it. *)
Fixpoint run_rest (comparefn : A → A → list E * completion cmp_result)
    (descending : bool) (previous : A) (rest : list A)
    : list E * completion nat :=
  match rest with
  | [] => ([], Normal 0%nat)
  | current :: rest' =>
      order ←* call_comparefn comparefn current previous;
      if (if descending then 0 <=? order else order <? 0)
      then ([], Normal 0%nat)
      else n ←* run_rest comparefn descending current rest'; ([], Normal (S n))
  end.

(** The binary search of the insertion point of [pivot] in [a], between
    [left] and [right].  Each step halves the interval, so [length a] steps
    of [fuel] are enough. *)
Fixpoint find_position (comparefn : A → A → list E * completion cmp_result)
    (fuel : nat) (pivot : A) (a : list A) (left right : nat)
    : list E * completion nat :=
  match fuel with
  | O => ([], Normal left)
  | S fuel' =>
      if bool_decide (left < right)%nat then
        let mid := (left + (right - left) / 2)%nat in
        match a !! mid with
        | Some m =>
            order ←* call_comparefn comparefn pivot m;
            if order <? 0
            then find_position comparefn fuel' pivot a left mid
            else find_position comparefn fuel' pivot a (S mid) right
        | None => ([], Normal left)
        end
      else ([], Normal left)
  end.

(** [pivot] put at its insertion point; the elements from there on move up
    by one. *)
Definition place (comparefn : A → A → list E * completion cmp_result)
    (pivot : A) (a : list A) : list E * completion (list A) :=
  left ←* find_position comparefn (length a) pivot a 0 (length a);
  ([], Normal (take left a ++ pivot :: drop left a)).

(** The elements of [rest] inserted one after the other into [a]. *)
Fixpoint binary_insertion
    (comparefn : A → A → list E * completion cmp_result)
    (a rest : list A) : list E * completion (list A) :=
  match rest with
  | [] => ([], Normal a)
  | pivot :: rest' =>
      a' ←* place comparefn pivot a; binary_insertion comparefn a' rest'
  end.

(** An array of fewer than two elements is returned as it is.  Otherwise
    the first two elements tell whether the run at the front descends;
    the run is taken, turned round if it descends, and the rest is
    inserted into it. *)
Definition sort (comparefn : A → A → list E * completion cmp_result)
    (l : list A) : list E * completion (list A) :=
  match l with
  | x0 :: x1 :: rest =>
      order ←* call_comparefn comparefn x1 x0;
      let descending := order <? 0 in
      n ←* run_rest comparefn descending x1 rest;
      let n := (2 + n)%nat in
      binary_insertion comparefn
        (if descending then reverse (take n l) else take n l) (drop n l)
  | _ => ([], Normal l)
  end.

(** The same steps for a comparator that returns a number and does not
    throw; [sort_total] relates the two. *)
Fixpoint run_rest_with (cmp : A → A → Z) (descending : bool) (previous : A)
    (rest : list A) : nat :=
  match rest with
  | [] => 0%nat
  | current :: rest' =>
      let order := cmp current previous in
      if (if descending then 0 <=? order else order <? 0) then 0%nat
      else S (run_rest_with cmp descending current rest')
  end.

Fixpoint find_position_with (cmp : A → A → Z) (fuel : nat) (pivot : A)
    (a : list A) (left right : nat) : nat :=
  match fuel with
  | O => left
  | S fuel' =>
      if bool_decide (left < right)%nat then
        let mid := (left + (right - left) / 2)%nat in
        match a !! mid with
        | Some m =>
            if cmp pivot m <? 0
            then find_position_with cmp fuel' pivot a left mid
            else find_position_with cmp fuel' pivot a (S mid) right
        | None => left
        end
      else left
  end.

Definition place_with (cmp : A → A → Z) (pivot : A) (a : list A) : list A :=
  let left := find_position_with cmp (length a) pivot a 0 (length a) in
  take left a ++ pivot :: drop left a.

Fixpoint binary_insertion_with (cmp : A → A → Z) (a rest : list A) : list A :=
  match rest with
  | [] => a
  | pivot :: rest' => binary_insertion_with cmp (place_with cmp pivot a) rest'
  end.

Definition sort_with (cmp : A → A → Z) (l : list A) : list A :=
  match l with
  | x0 :: x1 :: rest =>
      let descending := cmp x1 x0 <? 0 in
      let n := (2 + run_rest_with cmp descending x1 rest)%nat in
      binary_insertion_with cmp
        (if descending then reverse (take n l) else take n l) (drop n l)
  | _ => l
  end.

End sort.

End JsArray.
Export JsArray.

(** ** encodeURIComponent *)

Module JsUri.

(** uriUnescaped without the reserved set: letters, digits and [-_.!~*'()]. *)
Definition unescaped (c : N) : bool :=
  ((0x41 <=? c) && (c <=? 0x5A))%N || ((0x61 <=? c) && (c <=? 0x7A))%N
  || ((0x30 <=? c) && (c <=? 0x39))%N
  || bool_decide (c ∈ [0x2D; 0x5F; 0x2E; 0x21; 0x7E; 0x2A; 0x27; 0x28; 0x29]%N).

Definition hex_digit (n : N) : N :=
  (if n <? 10 then 0x30 + n else 0x41 + (n - 10))%N.

(** One octet as [%XX], upper-case digits. *)
Definition percent (octet : N) : jsstring :=
  [0x25; hex_digit (octet / 16); hex_digit (octet mod 16)]%N.

(** The UTF-8 octets of a code point. *)
Definition utf8 (cp : N) : list N :=
  (if cp <? 0x80 then [cp]
   else if cp <? 0x800 then [0xC0 + cp / 64; 0x80 + cp mod 64]
   else if cp <? 0x10000 then
     [0xE0 + cp / 4096; 0x80 + (cp / 64) mod 64; 0x80 + cp mod 64]
   else
     [0xF0 + cp / 262144; 0x80 + (cp / 4096) mod 64;
      0x80 + (cp / 64) mod 64; 0x80 + cp mod 64])%N.

Definition is_lead (c : N) : bool := ((0xD800 <=? c) && (c <=? 0xDBFF))%N.
Definition is_trail (c : N) : bool := ((0xDC00 <=? c) && (c <=? 0xDFFF))%N.

Definition escape (cp : N) : jsstring := utf8 cp ≫= percent.

(** [encodeURIComponent(s)]: an unpaired surrogate is a URIError. *)
Fixpoint encodeURIComponent (s : jsstring) : completion jsstring :=
  match s with
  | [] => Normal []
  | c :: s' =>
      if unescaped c then r ←! encodeURIComponent s'; Normal (c :: r)
      else if is_lead c then
        match s' with
        | d :: s'' =>
            if is_trail d then
              r ←! encodeURIComponent s'';
              Normal (escape (0x10000 + (c - 0xD800) * 0x400 + (d - 0xDC00))%N ++ r)
            else Throw URIError
        | [] => Throw URIError
        end
      else if is_trail c then Throw URIError
      else r ←! encodeURIComponent s'; Normal (escape c ++ r)
  end.

End JsUri.
Export JsUri.

(** ** Rows, requests, console lines, events *)

Arguments js _%_string.

(** A row object of csv-parser: header name to cell. *)
Abbreviation row := (gmap jsstring jsstring).

(** The request body built at lines 85 to 89.  A property read from a
    missing column is [undefined], here [None]. *)
Record payload := Payload {
  locationCode : option jsstring;
  locationType : jsstring;
  locationName : option jsstring
}.

(** The body of a response as axios hands it over: the parsed JSON text, or
    the text itself, a string, when it is no JSON.  A number is given by the
    string [Number::toString] makes of it. *)
Unset Elimination Schemes.
Inductive json :=
  | JNull
  | JBool (b : bool)
  | JNumber (text : jsstring)
  | JString (s : jsstring)
  | JArray (items : list json)
  | JObject (members : list (jsstring * json)).
Set Elimination Schemes.

(** ToString, applied by a template literal to [${...}].  An array is
    joined with commas, [null] elements giving nothing.  An object goes
    through ToPrimitive: its [toString] is [Object.prototype.toString]
    unless it has a member of that name, and a member is never callable;
    [valueOf] then gives no primitive either, and the conversion is a
    TypeError. *)
Fixpoint ToString (v : json) : completion jsstring :=
  match v with
  | JNull => Normal (js "null")
  | JBool b => Normal (if b then js "true" else js "false")
  | JNumber text => Normal text
  | JString s => Normal s
  | JArray items =>
      (fix join (items : list json) : completion jsstring :=
         match items with
         | [] => Normal []
         | item :: rest =>
             s ←! match item with
                  | JNull => Normal []
                  | _ => ToString item
                  end;
             match rest with
             | [] => Normal s
             | _ => r ←! join rest; Normal (s ++ js "," ++ r)
             end
         end) items
  | JObject members =>
      if bool_decide (js "toString" ∈ members.*1) then Throw TypeError
      else Normal (js "[object Object]")
  end.

(** [error.message] of the TypeError of a failed conversion. *)
Definition message (error : exn) : jsstring :=
  match error with
  | TypeError => js "Cannot convert object to primitive value"
  | URIError => js "URI malformed"
  | StreamError _ => js ""
  end.

(** How the promise of [axios.post] settles. *)
Inductive reply :=
  | Fulfilled (data : json)
  | RejectedStatus (status : N) (data : json)
  | RejectedNoResponse (message : jsstring)
  | RejectedSetup (message : jsstring).

Inductive console :=
  | LogRow (data : row)
  | LogRead (n : nat)
  | ErrReading (error : exn)
  | LogLocations (locations : list row)
  | LogCompared (a b : row)
  | LogCaught (error : exn)
  | LogStarting
  | LogAttempting (location : row)
  | LogSuccess (location : row) (data : jsstring)
  | ErrStatus (location : row) (status : N) (data : jsstring)
  | ErrNoResponse (location : row) (message : jsstring)
  | ErrSetup (location : row) (message : jsstring)
  | LogFinished
  | WarnNoData
  | ErrFailed (error : exn).

Inductive event :=
  | Console (line : console)
  | Post (url : jsstring) (body : payload)
  | Sleep (ms : N).

(** The remote side: the reply to the [i]-th call of [axios.post]. *)
Definition network := nat → jsstring → payload → reply.

(** ** Configuration *)

Definition API_BASE_URL : jsstring := js "http://localhost:8081/api/hec/location".

Definition locationTypesOrder : list jsstring :=
  [js "PROVINCE"; js "DISTRICT"; js "SECTOR"; js "CELL"; js "VILLAGE"].

(** ** readCsvFile, lines 25 to 53 *)

(** The two streams of lines 28 and 29: [fs.createReadStream(...)] and
    [parser(...)]. *)
Inductive emitter :=
  | FsReadStream
  | CsvParser.

Global Instance emitter_eq_dec : EqDecision emitter.
Proof. solve_decision. Defined.

(** What the file and the parser do during one run: the read stream fails
    (the file cannot be opened, or a read fails after some chunks), the
    parser fails, or the parser reaches the end.  [before] and [rows] are
    the raw rows the parser has emitted by then. *)
Inductive load :=
  | ReadFails (before : list row) (e : exn)
  | ParseFails (before : list row) (e : exn)
  | Ends (rows : list row).

(** How the wait of line 130 ends.  [Uncaught]: an EventEmitter that emits
    ['error'] while no listener is registered for it throws the error; here
    nothing catches it, so it ends the process as an uncaught exception,
    the promise still pending. *)
Inductive loaded :=
  | Resolved (results : list row)
  | Rejected (error : exn)
  | Uncaught (error : exn).

(** [src.pipe(dest)] returns [dest]; it passes data and the end of [src]
    on to [dest], not its errors. *)
Definition pipe (src dest : emitter) : emitter := dest.

(** Lines 28 to 48 are one chain,
    [fs.createReadStream(...).pipe(parser(...)).on(...).on(...).on(...)],
    and [.on] returns its receiver: the three listeners are registered on
    the value of [.pipe(...)]. *)
Definition listened : emitter := pipe FsReadStream CsvParser.

(** The ['data'] listener, lines 34 to 43.  Every cell of csv-parser is a
    string, so the [typeof] test holds for every key. *)
Definition on_data (data : row) (results : list row) : list event * list row :=
  let data := trim <$> data in
  ([Console (LogRow data)], results ++ [data]).

Fixpoint emit_data (rows : list row) (results : list row) : list event * list row :=
  match rows with
  | [] => ([], results)
  | data :: rows' =>
      let '(t, results) := on_data data results in
      let '(t', results) := emit_data rows' results in
      (t ++ t', results)
  end.

(** The ['end'] listener, lines 44 to 47. *)
Definition on_end (results : list row) : list event * loaded :=
  ([Console (LogRead (length results))], Resolved results).

(** The ['error'] listener, lines 48 to 51. *)
Definition on_error (error : exn) : list event * loaded :=
  ([Console (ErrReading error)], Rejected error).

(** Emitting ['error'] on [source]: the listener of line 48 runs if
    [source] is the stream it was registered on; no other ['error']
    listener is registered anywhere in the file. *)
Definition emit_error (source : emitter) (error : exn) : list event * loaded :=
  if decide (source = listened) then on_error error else ([], Uncaught error).

Definition readCsvFile (file : load) : list event * loaded :=
  match file with
  | ReadFails before e =>
      let '(t, _) := emit_data before [] in
      let '(t', r) := emit_error FsReadStream e in (t ++ t', r)
  | ParseFails before e =>
      let '(t, _) := emit_data before [] in
      let '(t', r) := emit_error CsvParser e in (t ++ t', r)
  | Ends rows =>
      let '(t, results) := emit_data rows [] in
      let '(t', r) := on_end results in (t ++ t', r)
  end.

(** ** The end of the process *)

(** How the process ends: the [main()] call of line 144 has run to its
    end and nothing is left to do (exit status 0), or an exception reached
    the runtime (exit status 1). *)
Inductive termination :=
  | Completed
  | Died (error : exn).

Definition exit_status (t : termination) : Z :=
  match t with
  | Completed => 0
  | Died _ => 1
  end.

(** ** The program *)

Section Program.

(** [String.prototype.toUpperCase] follows the Unicode case tables; the
    program is read for any such function. *)
Variable toUpperCase : jsstring → jsstring.

(** *** populateLocations, lines 62 to 123 *)

(** [locationTypesOrder.indexOf(a.Level.toUpperCase())]; calling a method of
    [undefined] is a TypeError. *)
Definition level_index (a : row) : completion Z :=
  match a !! js "Level" with
  | Some Level => Normal (indexOf locationTypesOrder (toUpperCase Level))
  | None => Throw TypeError
  end.

(** The comparator of lines 67 to 78.  Its [catch] prints the two rows and
    the error, and returns nothing. *)
Definition comparefn (a b : row) : list event * completion cmp_result :=
  match (levelA ←! level_index a;
         levelB ←! level_index b;
         Normal (levelA - levelB)) with
  | Normal d => ([], Normal (Num d))
  | Throw error =>
      ([Console (LogCompared a b); Console (LogCaught error)], Normal Undefined)
  end.

(** The value the comparator returns, and the number [sort] makes of it. *)
Definition compare_value (a b : row) : cmp_result :=
  match level_index a, level_index b with
  | Normal levelA, Normal levelB => Num (levelA - levelB)
  | _, _ => Undefined
  end.

Definition order (a b : row) : Z := cmp_number (compare_value a b).

(** The rank of a row as a sorting key; a row without a level has none,
    and gets the key 0 only so that the function is total. *)
Definition rank_key (r : row) : Z :=
  match level_index r with
  | Normal k => k
  | Throw _ => 0
  end.

(** The sequencer: the array after [locationsData.sort(...)]. *)
Definition sequencer (locationsData : list row) : completion (list row) :=
  (sort comparefn locationsData).2.

(** Lines 83 to 95: the payload and the URL of one location. *)
Definition build_request (location : row) : completion (jsstring * payload) :=
  match location !! js "Level" with
  | None => Throw TypeError
  | Some Level =>
      let body := {| locationCode := location !! js "LocationCode";
                     locationType := toUpperCase Level;
                     locationName := location !! js "LocationName" |} in
      let apiUrl := API_BASE_URL ++ js "/saveLocation" in
      match location !! js "ParentCode" with
      | Some ParentCode =>
          if bool_decide (0 < length ParentCode)%nat then
            q ←! encodeURIComponent ParentCode;
            Normal (apiUrl ++ js "?parentCode=" ++ q, body)
          else Normal (apiUrl, body)
      | None => Normal (apiUrl, body)
      end
  end.

(** Lines 97 to 117: the [try] around the call and its [catch].  The line
    of the outcome is a template literal over the body of the response.  In
    the [try] (line 104) a failed conversion is caught like any error, and
    having neither [response] nor [request] it is reported by line 115; in
    the [catch] (line 109) nothing catches it. *)
Definition attempt (net : network) (i : nat) (location : row)
    (apiUrl : jsstring) (body : payload) : list event * completion unit :=
  let t := [Console (LogAttempting location); Post apiUrl body] in
  match net i apiUrl body with
  | Fulfilled data =>
      match ToString data with
      | Normal text => (t ++ [Console (LogSuccess location text)], Normal ())
      | Throw error =>
          (t ++ [Console (ErrSetup location (message error))], Normal ())
      end
  | RejectedStatus status data =>
      match ToString data with
      | Normal text =>
          (t ++ [Console (ErrStatus location status text)], Normal ())
      | Throw error => (t, Throw error)
      end
  | RejectedNoResponse message =>
      (t ++ [Console (ErrNoResponse location message)], Normal ())
  | RejectedSetup message =>
      (t ++ [Console (ErrSetup location message)], Normal ())
  end.

(** One pass of the loop, lines 83 to 119: the request is built, the
    attempt made, and the pause of line 119 taken. *)
Definition iteration (net : network) (i : nat) (location : row)
    : list event * completion unit :=
  match build_request location with
  | Throw e => ([], Throw e)
  | Normal (apiUrl, body) =>
      _ ←* attempt net i location apiUrl body; ([Sleep 100], Normal ())
  end.

(** The [for ... of] loop, lines 82 to 120; [i] counts the calls made. *)
Fixpoint publish (net : network) (i : nat) (locationsData : list row)
    : list event * completion unit :=
  match locationsData with
  | [] => ([], Normal ())
  | location :: rest =>
      _ ←* iteration net i location; publish net (S i) rest
  end.

Definition populateLocations (net : network) (locationsData : list row)
    : list event * completion unit :=
  sorted ←* sort comparefn locationsData;
  _ ←* ([Console LogStarting], Normal ());
  _ ←* publish net 0 sorted;
  ([Console LogFinished], Normal ()).

(** *** main, lines 128 to 141 *)

Definition main (file : load) (net : network) : list event * termination :=
  match readCsvFile file with
  | (t, Uncaught error) => (t, Died error)
  | (t, Rejected error) => (t ++ [Console (ErrFailed error)], Completed)
  | (t, Resolved locations) =>
      let t := t ++ [Console (LogLocations locations)] in
      if bool_decide (0 < length locations)%nat then
        match populateLocations net locations with
        | (t', Normal _) => (t ++ t', Completed)
        | (t', Throw error) => (t ++ t' ++ [Console (ErrFailed error)], Completed)
        end
      else (t ++ [Console WarnNoData], Completed)
  end.

End Program.

(** ** Observations and sample rows *)

(** The calls of [axios.post] in a trace, in order. *)
Definition posts (t : list event) : list (jsstring * payload) :=
  omap (λ e, match e with Post url body => Some (url, body) | _ => None end) t.

Global Instance exn_eq_dec : EqDecision exn.
Proof. solve_decision. Defined.

Global Instance completion_eq_dec `{EqDecision A} : EqDecision (completion A).
Proof. solve_decision. Defined.

Definition kigali : row :=
  {[ js "Level" := js "province"; js "LocationCode" := js "RW01";
     js "LocationName" := js "Kigali"; js "ParentCode" := js "" ]}.

Definition nyarugenge : row :=
  {[ js "Level" := js "district"; js "LocationCode" := js "RW0101";
     js "LocationName" := js "Nyarugenge"; js "ParentCode" := js "RW01" ]}.

Definition gasabo : row :=
  {[ js "Level" := js "district"; js "LocationCode" := js "RW0102";
     js "LocationName" := js "Gasabo"; js "ParentCode" := js "RW01" ]}.

Definition gitega : row :=
  {[ js "Level" := js "sector"; js "LocationCode" := js "RW010101";
     js "LocationName" := js "Gitega"; js "ParentCode" := js "RW0101" ]}.

(** A row whose level is no known tag, and the row of a blank line. *)
Definition hamlet : row :=
  {[ js "Level" := js "hamlet"; js "LocationCode" := js "RW99";
     js "LocationName" := js "Nowhere"; js "ParentCode" := js "RW01" ]}.

Definition blank : row := ∅.

(** A reply other than 2xx: the promise of [axios.post] rejects. *)
Definition failed (r : reply) : bool :=
  match r with
  | Fulfilled _ => false
  | _ => true
  end.

(** A server that rejects every call with status 500. *)
Definition always_rejects : network :=
  λ _ _ _, RejectedStatus 500 (JString (js "boom")).

(** A server that rejects the second call with status 500. *)
Definition second_fails : network :=
  λ i _ _, if decide (i = 1%nat) then RejectedStatus 500 (JString (js "boom"))
           else Fulfilled (JString (js "saved")).

(** The pauses in a trace, in order, with their lengths in milliseconds. *)
Definition sleeps (t : list event) : list N :=
  omap (λ e, match e with Sleep ms => Some ms | _ => None end) t.

(** A row as the parser hands it over, cells not yet trimmed; its
    ParentCode is white space only. *)
Definition padded : row :=
  {[ js "Level" := js " province"; js "LocationCode" := js "RW02 ";
     js "LocationName" := js "  Amajyepfo  "; js "ParentCode" := js "   " ]}.

(** Rows of a file whose header spells the level column in lower case. *)
Definition misnamed : list row :=
  [ {[ js "level" := js "province"; js "LocationCode" := js "RW01" ]};
    {[ js "level" := js "district"; js "LocationCode" := js "RW0101" ]} ].

(** The ParentCode that passes the test of line 93, if any. *)
Definition parent_of (location : row) : option jsstring :=
  match location !! js "ParentCode" with
  | Some ParentCode =>
      if bool_decide (0 < length ParentCode)%nat then Some ParentCode else None
  | None => None
  end.

(** A JS string is a sequence of 16-bit code units. *)
Definition code_units (s : jsstring) : bool := forallb (λ c, c <? 0x10000)%N s.

(** A surrogate code unit, leading or trailing. *)
Definition is_surrogate (c : N) : bool := is_lead c || is_trail c.

(** A row whose ParentCode ends with a leading surrogate that has lost its
    trail. *)
Definition torn : row :=
  {[ js "Level" := js "cell"; js "LocationCode" := js "RW0101010101";
     js "ParentCode" := (js "RW01" ++ [0xD83D])%N ]}.

(** [c] ends normally with [x], and every line it prints satisfies [P]. *)
Definition runs {E X} (P : E → Prop) (c : list E * completion X) (x : X)
    : Prop :=
  c.2 = Normal x ∧ Forall P c.1.

(** The lines of the comparator's [catch]. *)
Definition caught_line (ev : event) : Prop :=
  (∃ a b, ev = Console (LogCompared a b) ∧
          (a !! js "Level" = None ∨ b !! js "Level" = None)) ∨
  ev = Console (LogCaught TypeError).

(** The rank table as the specification gives it: PROVINCE=0, DISTRICT=1,
    SECTOR=2, CELL=3, VILLAGE=4, and no rank for another tag. *)
Definition spec_rank (tag : jsstring) : option Z :=
  if decide (tag = js "PROVINCE") then Some 0
  else if decide (tag = js "DISTRICT") then Some 1
  else if decide (tag = js "SECTOR") then Some 2
  else if decide (tag = js "CELL") then Some 3
  else if decide (tag = js "VILLAGE") then Some 4
  else None.

(** A reply that escapes the [catch]: a rejecting status whose body
    cannot be turned into a string for the line of line 109. *)
Definition breaks (r : reply) : bool :=
  match r with
  | RejectedStatus _ data =>
      match ToString data with
      | Throw _ => true
      | Normal _ => false
      end
  | _ => false
  end.

(** A server that answers the second call with status 400 and the JSON
    body [{"toString": 1}]. *)
Definition second_unprintable : network :=
  λ i _ _, if decide (i = 1%nat)
           then RejectedStatus 400 (JObject [(js "toString", JNumber (js "1"))])
           else Fulfilled (JString (js "saved")).

(** ** Tactics for the sample inputs *)

(** A property of every row of a literal batch, row by row. *)
Ltac each_row tac :=
  repeat (apply Forall_cons_2; [tac|]); apply Forall_nil_2.

(** A decidable proposition, by evaluation. *)
Ltac compute_true := apply (bool_decide_unpack _); vm_compute; exact I.

(** ** Facts about the builtins *)

Example encodeURIComponent_code :
  encodeURIComponent (js "RW01") = Normal (js "RW01").
Proof. reflexivity. Qed.

Example encodeURIComponent_reserved :
  encodeURIComponent (js "Kigali City/1&2") =
  Normal (js "Kigali%20City%2F1%262").
Proof. reflexivity. Qed.

(** U+00E9, U+4E2D and the pair for U+1F600. *)
Example encodeURIComponent_utf8 :
  encodeURIComponent [0xE9; 0x4E2D; 0xD83D; 0xDE00]%N =
  Normal (js "%C3%A9%E4%B8%AD%F0%9F%98%80").
Proof. reflexivity. Qed.

Example encodeURIComponent_lone_surrogate :
  encodeURIComponent [0x52; 0xD83D; 0x57]%N = Throw URIError.
Proof. reflexivity. Qed.

(** A tab and spaces in front, a no-break space, a line feed and U+FEFF
    behind; the space inside stays. *)
Example trim_inner_space :
  trim ([0x09; 0x20; 0x20] ++ js "Kigali City" ++ [0xA0; 0x0A; 0xFEFF])%N =
  js "Kigali City".
Proof. reflexivity. Qed.

Example indexOf_first :
  indexOf [js "a"; js "b"; js "a"] (js "a") = 0 ∧
  indexOf [js "a"; js "b"; js "a"] (js "b") = 1 ∧
  indexOf [js "a"; js "b"; js "a"] (js "c") = -1.
Proof. by repeat split. Qed.

(** A descending run at the front is turned round, the rest is inserted;
    equal keys keep their order. *)
Example sort_with_pairs :
  sort_with (λ a b : Z * Z, a.1 - b.1)
    [(3, 0); (2, 0); (1, 0); (2, 1); (5, 0); (1, 1); (3, 1); (0, 0)] =
    [(0, 0); (1, 0); (1, 1); (2, 0); (2, 1); (3, 0); (3, 1); (5, 0)].
Proof. reflexivity. Qed.

Example sort_numbers :
  sort (λ a b : Z, ([] : list (Z * Z), Normal (Num (a - b)))) [4; 1; 3; 1; 0] =
  ([], Normal [0; 1; 1; 3; 4]).
Proof. reflexivity. Qed.

(** A comparator that prints its arguments and throws on 3: the sort ends
    at the second call. *)
Example sort_throwing :
  sort (λ a b : Z, ([(a, b)],
                    if a =? 3 then Throw TypeError else Normal (Num (a - b))))
    [4; 1; 3; 1; 0] = ([(1, 4); (3, 1)], Throw TypeError).
Proof. reflexivity. Qed.

(** ** Facts about the sort *)

Lemma filter_all {A} (P : A → Prop) `{!∀ x, Decision (P x)} (l : list A) :
  Forall P l → filter P l = l.
Proof.
  induction 1 as [|x l Hx Hl IH]; [done|].
  by rewrite filter_cons_True, IH.
Qed.

Lemma filter_none {A} (P : A → Prop) `{!∀ x, Decision (P x)} (l : list A) :
  Forall (λ x, ¬ P x) l → filter P l = [].
Proof.
  induction 1 as [|x l Hx Hl IH]; [done|].
  by rewrite filter_cons_False.
Qed.

Lemma filter_ext_elem_of {A} (P Q : A → Prop)
    `{!∀ x, Decision (P x), !∀ x, Decision (Q x)} (l : list A) :
  (∀ x, x ∈ l → P x ↔ Q x) → filter P l = filter Q l.
Proof.
  induction l as [|x l IH]; intros Hiff; [done|].
  rewrite !filter_cons.
  rewrite IH by (intros; apply Hiff; by right).
  destruct (decide (P x)) as [HP|HP], (decide (Q x)) as [HQ|HQ]; try done.
  - destruct HQ. by apply (Hiff x); [left|].
  - destruct HP. by apply (Hiff x); [left|].
Qed.

(** *** Lists with neighbours in order *)

Lemma Sorted_impl_elem_of {A} (R1 R2 : relation A) (l : list A) :
  (∀ x y, x ∈ l → y ∈ l → R1 x y → R2 x y) → Sorted R1 l → Sorted R2 l.
Proof.
  intros Himpl Hl. induction Hl as [|x l Hl IH Hhd]; [constructor|].
  constructor.
  - apply IH. intros; apply Himpl; [by right..|done].
  - destruct Hhd as [|y l' Hxy]; constructor.
    apply Himpl; [left|right; left|done].
Qed.

Lemma Sorted_insert_middle {A} (R : relation A) (l1 l2 : list A) (x : A) :
  Sorted R (l1 ++ l2) →
  (∀ y, last l1 = Some y → R y x) →
  (∀ z, head l2 = Some z → R x z) →
  Sorted R (l1 ++ x :: l2).
Proof.
  induction l1 as [|y l1 IH]; simpl; intros Hl Hlast Hhead.
  { constructor; [done|]. destruct l2; constructor. by apply Hhead. }
  apply Sorted_inv in Hl as [Hl Hhd]. constructor.
  - apply IH; [done| |done].
    intros z Hz. apply Hlast. destruct l1; [done|]. done.
  - destruct l1 as [|y' l1]; simpl in *.
    + constructor. by apply Hlast.
    + constructor. by inv Hhd.
Qed.

(** *** Lists sorted by a key *)

Section sorted_by_key.
Context {A : Type} (key : A → Z).

Local Abbreviation K := (λ a b : A, key a ≤ key b).

Lemma StronglySorted_lookup l i j a b :
  StronglySorted K l → (i < j)%nat →
  l !! i = Some a → l !! j = Some b → key a ≤ key b.
Proof.
  intros Hl. revert i j. induction Hl as [|x l Hl IH Hall]; intros i j Hij Hi Hj.
  { by rewrite lookup_nil in Hi. }
  destruct j as [|j]; [lia|]. simpl in Hj.
  destruct i as [|i]; simpl in Hi.
  - simplify_eq. rewrite Forall_forall in Hall.
    apply Hall. by eapply list_elem_of_lookup_2.
  - eapply (IH i j); [lia|done..].
Qed.

(** In a list sorted by key, a smaller key sits at a smaller index. *)
Lemma StronglySorted_before l i j a b :
  StronglySorted K l →
  l !! i = Some a → l !! j = Some b → key a < key b → (i < j)%nat.
Proof.
  intros Hl Hi Hj Hab.
  destruct (decide (i < j)%nat) as [|Hge]; [done|].
  destruct (decide (i = j)) as [->|]; [simplify_eq; lia|].
  pose proof (StronglySorted_lookup l j i b a Hl ltac:(lia) Hj Hi). lia.
Qed.

(** A list sorted by key is its low part followed by its high part. *)
Lemma StronglySorted_split l k :
  StronglySorted K l →
  l = filter (λ a, key a ≤ k) l ++ filter (λ a, k < key a) l.
Proof.
  induction 1 as [|x l Hl IH Hall]; [done|].
  rewrite !filter_cons.
  destruct (decide (key x ≤ k)) as [Hx|Hx].
  - rewrite decide_False by lia. simpl. by rewrite <-IH.
  - rewrite decide_True by lia.
    assert (Forall (λ a, k < key a) l) as Hhigh.
    { eapply Forall_impl; [done|]. simpl. intros; lia. }
    replace (filter (λ a, key a ≤ k) l) with (@nil A).
    + simpl. f_equal. symmetry. by apply filter_all.
    + symmetry. apply filter_none.
      eapply Forall_impl; [done|]. simpl. intros; lia.
Qed.

(** Sorted by key and stable: at most one list is both.  For a comparator
    that is the difference of keys this is why the result of a stable sort
    does not depend on the algorithm. *)
Lemma StronglySorted_stable_unique l1 l2 :
  StronglySorted K l1 → StronglySorted K l2 →
  (∀ k, filter (λ a, key a = k) l1 = filter (λ a, key a = k) l2) →
  l1 = l2.
Proof.
  intros Hl1. revert l2.
  induction Hl1 as [|x t1 Ht1 IH Hx]; intros l2 Hl2 Hfilter.
  { destruct l2 as [|y t2]; [done|].
    specialize (Hfilter (key y)). by rewrite filter_cons_True in Hfilter. }
  destruct Hl2 as [|y t2 Ht2 Hy].
  { specialize (Hfilter (key x)). by rewrite filter_cons_True in Hfilter. }
  assert (key x = key y) as Hkey.
  { rewrite Forall_forall in Hx, Hy. apply Z.le_antisymm.
    - assert (y ∈ filter (λ a, key a = key y) (x :: t1)) as Hin.
      { rewrite Hfilter, filter_cons_True by done. left. }
      apply list_elem_of_filter in Hin as [_ [->|Hin]%elem_of_cons]; [lia|].
      by apply Hx.
    - assert (x ∈ filter (λ a, key a = key x) (y :: t2)) as Hin.
      { rewrite <-Hfilter, filter_cons_True by done. left. }
      apply list_elem_of_filter in Hin as [_ [->|Hin]%elem_of_cons]; [lia|].
      by apply Hy. }
  pose proof (Hfilter (key x)) as Hhead.
  rewrite !filter_cons_True in Hhead by done.
  injection Hhead as -> Htail. f_equal. apply IH; [done|].
  intros k. destruct (decide (key y = k)) as [<-|Hne]; [done|].
  specialize (Hfilter k). by rewrite !filter_cons_False in Hfilter.
Qed.

(** With strictly descending keys no two elements share a key. *)
Lemma strictly_descending_classes l k :
  StronglySorted (λ p c : A, key c < key p) l →
  (length (filter (λ x, key x = k) l) ≤ 1)%nat.
Proof.
  induction 1 as [|x l Hl IH Hall]; [simpl; lia|].
  rewrite filter_cons. case_decide as Hk; [|done].
  rewrite filter_none; [simpl; lia|].
  eapply Forall_impl; [done|]. simpl. intros; lia.
Qed.

End sorted_by_key.

(** *** The steps of the sort *)

Section sort_facts.
Context {A : Type} (cmp : A → A → Z).

Lemma run_rest_with_le descending previous rest :
  (run_rest_with cmp descending previous rest ≤ length rest)%nat.
Proof.
  revert previous. induction rest as [|c rest IH]; intros p; simpl; [lia|].
  destruct (if descending then _ else _); [lia|]. specialize (IH c). lia.
Qed.

Lemma run_rest_with_ascending previous rest :
  Sorted (λ p c, 0 ≤ cmp c p)
    (previous :: take (run_rest_with cmp false previous rest) rest).
Proof.
  revert previous. induction rest as [|c rest IH]; intros p; simpl.
  { repeat constructor. }
  destruct (Z.ltb_spec (cmp c p) 0); simpl.
  { repeat constructor. }
  constructor; [apply IH|by constructor].
Qed.

Lemma run_rest_with_descending previous rest :
  Sorted (λ p c, cmp c p < 0)
    (previous :: take (run_rest_with cmp true previous rest) rest).
Proof.
  revert previous. induction rest as [|c rest IH]; intros p; simpl.
  { repeat constructor. }
  destruct (Z.leb_spec 0 (cmp c p)); simpl.
  { repeat constructor. }
  constructor; [apply IH|by constructor].
Qed.

Lemma run_rest_with_all previous rest :
  Sorted (λ p c, 0 ≤ cmp c p) (previous :: rest) →
  run_rest_with cmp false previous rest = length rest.
Proof.
  revert previous. induction rest as [|c rest IH]; intros p Hs; simpl; [done|].
  apply Sorted_inv in Hs as [Hs Hhd]. inv Hhd.
  destruct (Z.ltb_spec (cmp c p) 0); [lia|]. by rewrite IH.
Qed.

Lemma find_position_with_spec fuel pivot a left right :
  (left ≤ right ≤ length a)%nat → (right - left ≤ fuel)%nat →
  (left ≤ find_position_with cmp fuel pivot a left right ≤ right)%nat ∧
  (find_position_with cmp fuel pivot a left right = left ∨
   ∃ m, a !! (find_position_with cmp fuel pivot a left right - 1)%nat = Some m ∧
        0 ≤ cmp pivot m) ∧
  (find_position_with cmp fuel pivot a left right = right ∨
   ∃ m, a !! find_position_with cmp fuel pivot a left right = Some m ∧ cmp pivot m < 0).
Proof.
  revert left right. induction fuel as [|fuel IH]; intros left right Hb Hf;
    cbn [find_position_with].
  { assert (left = right) by lia. subst. split; [lia|]. split; by left. }
  case_bool_decide as Hlt; [|assert (left = right) by lia; subst; split; [lia|split; by left]].
  set (mid := (left + (right - left) / 2)%nat).
  assert (left ≤ mid < right)%nat as Hmid.
  { subst mid. pose proof (Nat.Div0.div_le_upper_bound (right - left) 2 (right - left)).
    assert ((right - left) / 2 < right - left)%nat by (apply Nat.div_lt; lia). lia. }
  destruct (lookup_lt_is_Some_2 a mid ltac:(lia)) as [m Hm]. rewrite Hm.
  destruct (Z.ltb_spec (cmp pivot m) 0) as [Hneg|Hpos].
  - destruct (IH left mid ltac:(lia) ltac:(lia)) as (Hr & Hl & Hh).
    split; [lia|]. split; [done|].
    destruct Hh as [->|?]; [right; eauto|by right].
  - destruct (IH (S mid) right ltac:(lia) ltac:(lia)) as (Hr & Hl & Hh).
    split; [lia|]. split; [|done].
    destruct Hl as [->|?]; [|by right].
    right. exists m. by rewrite Nat.sub_succ, Nat.sub_0_r.
Qed.

(** Fuel beyond the width of the interval is never used: the search ends
    because the interval is empty, not because the fuel is. *)
Lemma find_position_with_fuel fuel fuel' pivot a left right :
  (right - left ≤ fuel)%nat → (right - left ≤ fuel')%nat →
  find_position_with cmp fuel pivot a left right =
  find_position_with cmp fuel' pivot a left right.
Proof.
  revert fuel' left right.
  induction fuel as [|fuel IH]; intros [|fuel'] left right Hf Hf';
    cbn [find_position_with]; try done.
  - by rewrite bool_decide_false by lia.
  - by rewrite bool_decide_false by lia.
  - case_bool_decide as Hlt; [|done].
    assert ((right - left) / 2 < right - left)%nat by (apply Nat.div_lt; lia).
    destruct (a !! _) as [m|]; [|done].
    destruct (cmp pivot m <? 0); apply IH; lia.
Qed.

Lemma place_with_perm pivot a : place_with cmp pivot a ≡ₚ pivot :: a.
Proof.
  unfold place_with. cbv zeta.
  etrans; [symmetry; apply Permutation_middle|]. by rewrite take_drop.
Qed.

Lemma binary_insertion_with_perm a rest : binary_insertion_with cmp a rest ≡ₚ a ++ rest.
Proof.
  revert a. induction rest as [|p rest IH]; intros a; simpl.
  { by rewrite app_nil_r. }
  rewrite IH, place_with_perm. apply Permutation_middle.
Qed.

Lemma sort_with_perm l : sort_with cmp l ≡ₚ l.
Proof.
  destruct l as [|x0 [|x1 rest]]; [done..|].
  unfold sort_with. rewrite binary_insertion_with_perm.
  destruct (cmp x1 x0 <? 0); [rewrite reverse_Permutation|]; by rewrite take_drop.
Qed.

(** **** Neighbours in order

    For a comparator with [cmp x y < 0 → 0 ≤ cmp y x] the result has every
    element not below the one before it, and such a list is left as it is.
    This needs no consistency of the comparator. *)

Section local.
Context (Hanti : ∀ x y, cmp x y < 0 → 0 ≤ cmp y x).

Lemma place_with_local pivot a :
  Sorted (λ p c, 0 ≤ cmp c p) a → Sorted (λ p c, 0 ≤ cmp c p) (place_with cmp pivot a).
Proof using Hanti.
  intros Ha. unfold place_with. cbv zeta.
  destruct (find_position_with_spec (length a) pivot a 0 (length a)) as (Hr & Hl & Hh);
    [lia..|].
  set (r := find_position_with cmp (length a) pivot a 0 (length a)) in *.
  apply Sorted_insert_middle.
  - by rewrite take_drop.
  - intros y Hy. rewrite last_lookup, length_take, lookup_take in Hy.
    case_decide; [|done].
    destruct Hl as [Hl|(m & Hm & Hpos)]; [lia|].
    replace (Init.Nat.pred (r `min` length a)) with (r - 1)%nat in Hy by lia.
    by simplify_eq.
  - intros z Hz. rewrite head_lookup, lookup_drop, Nat.add_0_r in Hz.
    destruct Hh as [Hh|(m & Hm & Hneg)].
    + rewrite Hh, lookup_ge_None_2 in Hz; [done|lia].
    + simplify_eq. by apply Hanti.
Qed.

Lemma binary_insertion_with_local a rest :
  Sorted (λ p c, 0 ≤ cmp c p) a →
  Sorted (λ p c, 0 ≤ cmp c p) (binary_insertion_with cmp a rest).
Proof using Hanti.
  revert a. induction rest as [|p rest IH]; intros a Ha; simpl; [done|].
  by apply IH, place_with_local.
Qed.

Lemma sort_with_local l : Sorted (λ p c, 0 ≤ cmp c p) (sort_with cmp l).
Proof using Hanti.
  destruct l as [|x0 [|x1 rest]]; [repeat constructor..|].
  unfold sort_with. apply binary_insertion_with_local.
  cbn [take Nat.add]. destruct (Z.ltb_spec (cmp x1 x0) 0) as [Hneg|Hpos].
  - eapply Sorted_impl_elem_of; [|apply Sorted_reverse].
    2:{ constructor; [apply run_rest_with_descending|by constructor]. }
    intros x y _ _. unfold flip. apply Hanti.
  - constructor; [apply run_rest_with_ascending|by constructor].
Qed.
End local.

Lemma sort_with_fixed l :
  Sorted (λ p c, 0 ≤ cmp c p) l → sort_with cmp l = l.
Proof.
  destruct l as [|x0 [|x1 rest]]; [done..|]. intros Hl.
  apply Sorted_inv in Hl as [Hl Hhd]. inv Hhd.
  unfold sort_with. destruct (Z.ltb_spec (cmp x1 x0) 0); [lia|].
  rewrite run_rest_with_all by done.
  replace (2 + length rest)%nat with (length (x0 :: x1 :: rest)) by done.
  by rewrite firstn_all, drop_all.
Qed.

Lemma sort_with_idemp l :
  (∀ x y, cmp x y < 0 → 0 ≤ cmp y x) →
  sort_with cmp (sort_with cmp l) = sort_with cmp l.
Proof. intros. by apply sort_with_fixed, sort_with_local. Qed.

(** **** A comparator that is the difference of keys

    On a list whose elements the comparator orders by a key, the result is
    sorted by that key and keeps the elements of each key in their order. *)

Section keyed.
Context (key : A → Z).

Local Abbreviation K := (λ a b : A, key a ≤ key b).

Local Instance K_trans : Transitive K.
Proof. intros x y z; simpl; lia. Qed.

Local Instance K_strict_trans : Transitive (λ p c : A, key c < key p).
Proof. intros x y z; simpl; lia. Qed.

Lemma find_position_with_keyed pivot a :
  StronglySorted K a →
  (∀ y, y ∈ a → cmp pivot y = key pivot - key y) →
  Forall (λ y, key y ≤ key pivot)
    (take (find_position_with cmp (length a) pivot a 0 (length a)) a) ∧
  Forall (λ y, key pivot < key y)
    (drop (find_position_with cmp (length a) pivot a 0 (length a)) a).
Proof.
  intros Ha Hcons.
  destruct (find_position_with_spec (length a) pivot a 0 (length a)) as (Hr & Hl & Hh);
    [lia..|].
  set (r := find_position_with cmp (length a) pivot a 0 (length a)) in *.
  split; apply Forall_lookup; intros i y Hy.
  - rewrite lookup_take in Hy. case_decide as Hi; [|done].
    destruct Hl as [Hl|(m & Hm & Hpos)]; [lia|].
    rewrite Hcons in Hpos by by eapply list_elem_of_lookup_2.
    destruct (decide (i = r - 1)%nat) as [->|]; [simplify_eq; lia|].
    pose proof (StronglySorted_lookup key a i (r - 1) y m Ha ltac:(lia) Hy Hm). lia.
  - rewrite lookup_drop in Hy.
    destruct Hh as [Hh|(m & Hm & Hneg)].
    { rewrite lookup_ge_None_2 in Hy; [done|lia]. }
    rewrite Hcons in Hneg by by eapply list_elem_of_lookup_2.
    destruct (decide (i = 0)%nat) as [->|].
    { rewrite Nat.add_0_r in Hy. simplify_eq. lia. }
    pose proof (StronglySorted_lookup key a r (r + i) m y Ha ltac:(lia) Hm Hy). lia.
Qed.

Lemma place_with_keyed pivot a :
  StronglySorted K a →
  (∀ y, y ∈ a → cmp pivot y = key pivot - key y) →
  StronglySorted K (place_with cmp pivot a) ∧
  ∀ k, filter (λ x, key x = k) (place_with cmp pivot a) =
       filter (λ x, key x = k) (a ++ [pivot]).
Proof.
  intros Ha Hcons. destruct (find_position_with_keyed pivot a Ha Hcons) as [Hlow Hhigh].
  unfold place_with. cbv zeta.
  set (r := find_position_with cmp (length a) pivot a 0 (length a)) in *.
  rewrite <-(take_drop r a) in Ha.
  apply StronglySorted_app in Ha as (Hcross & H1 & H2).
  rewrite Forall_forall in Hlow, Hhigh. split.
  - apply StronglySorted_app. split; [|split; [done|]].
    + intros x1 x2 Hx1 [->|Hx2]%elem_of_cons; [by apply Hlow|by apply Hcross].
    + constructor; [done|]. apply Forall_forall. intros x Hx.
      specialize (Hhigh x Hx). simpl in *. lia.
  - intros k. rewrite <-(take_drop r a) at 3.
    rewrite !filter_app, !filter_cons, filter_nil, <-(assoc_L (++)).
    f_equal. destruct (decide (key pivot = k)) as [<-|]; [|by rewrite app_nil_r].
    rewrite (filter_none _ (drop r a)); [done|].
    apply Forall_forall. intros x Hx ?. specialize (Hhigh x Hx). simpl in *. lia.
Qed.

Lemma binary_insertion_with_keyed a rest :
  StronglySorted K a →
  (∀ x y, x ∈ a ++ rest → y ∈ a ++ rest → cmp x y = key x - key y) →
  StronglySorted K (binary_insertion_with cmp a rest) ∧
  ∀ k, filter (λ x, key x = k) (binary_insertion_with cmp a rest) =
       filter (λ x, key x = k) (a ++ rest).
Proof.
  revert a. induction rest as [|p rest IH]; intros a Ha Hcons; simpl.
  { by rewrite app_nil_r. }
  destruct (place_with_keyed p a Ha) as [Hs Hf].
  { intros y Hy. apply Hcons; [apply elem_of_app; right; left|].
    apply elem_of_app. by left. }
  destruct (IH (place_with cmp p a) Hs) as [Hs' Hf'].
  { assert (place_with cmp p a ++ rest ≡ₚ a ++ p :: rest) as Hperm.
    { rewrite place_with_perm. simpl. apply Permutation_middle. }
    intros x y Hx Hy. rewrite Hperm in Hx, Hy. by apply Hcons. }
  split; [done|]. intros k.
  rewrite Hf', filter_app, Hf, <-filter_app, <-(assoc_L (++)). done.
Qed.

Lemma sort_with_keyed l :
  (∀ x y, x ∈ l → y ∈ l → cmp x y = key x - key y) →
  StronglySorted K (sort_with cmp l) ∧
  ∀ k, filter (λ x, key x = k) (sort_with cmp l) = filter (λ x, key x = k) l.
Proof.
  intros Hcons.
  destruct l as [|x0 [|x1 rest]]; [by repeat constructor..|].
  unfold sort_with. set (l := x0 :: x1 :: rest) in *.
  set (n := (2 + run_rest_with cmp (cmp x1 x0 <? 0)%Z x1 rest)%nat).
  assert (∀ x, x ∈ take n l → x ∈ l) as Htake.
  { intros x Hx. rewrite <-(take_drop n l). apply elem_of_app. by left. }
  assert (∀ run, run ≡ₚ take n l → StronglySorted K run →
    (∀ k, filter (λ x, key x = k) run = filter (λ x, key x = k) (take n l)) →
    StronglySorted K (binary_insertion_with cmp run (drop n l)) ∧
    ∀ k, filter (λ x, key x = k) (binary_insertion_with cmp run (drop n l)) =
         filter (λ x, key x = k) l) as Hfinish.
  { intros run Hperm Hs Hf.
    destruct (binary_insertion_with_keyed run (drop n l) Hs) as [Hs' Hf'].
    { intros x y Hx Hy. rewrite Hperm, take_drop in Hx, Hy. by apply Hcons. }
    split; [done|]. intros k.
    by rewrite Hf', filter_app, Hf, <-filter_app, take_drop. }
  subst n. cbn [take Nat.add] in *.
  destruct (Z.ltb_spec (cmp x1 x0) 0) as [Hneg|Hpos].
  - assert (Sorted (λ p c, key c < key p)
              (x0 :: x1 :: take (run_rest_with cmp true x1 rest) rest)) as Hdesc.
    { eapply Sorted_impl_elem_of;
        [|constructor; [apply run_rest_with_descending|by constructor]].
      intros x y Hx Hy. simpl. rewrite Hcons by auto. lia. }
    apply Hfinish.
    + apply reverse_Permutation.
    + apply Sorted_StronglySorted; [apply _|].
      eapply Sorted_impl_elem_of; [|apply Sorted_reverse, Hdesc].
      intros x y _ _. unfold flip. simpl. lia.
    + intros k. rewrite filter_reverse.
      pose proof (strictly_descending_classes key _ k
                    (Sorted_StronglySorted _ _ Hdesc)) as Hlen.
      destruct (filter _ _) as [|? [|??]]; [done..|simpl in Hlen; lia].
  - apply Hfinish; [done| |done].
    apply Sorted_StronglySorted; [apply _|].
    eapply Sorted_impl_elem_of;
      [|constructor; [apply run_rest_with_ascending|by constructor]].
    intros x y Hx Hy. simpl. rewrite Hcons by auto. lia.
Qed.

End keyed.
End sort_facts.

(** ** Facts about indexOf *)

Lemma indexOf_from_range xs x i :
  indexOf_from xs x i = -1 ∨ i ≤ indexOf_from xs x i < i + Z.of_nat (length xs).
Proof.
  revert i. induction xs as [|y ys IH]; intros i; simpl; [by left|].
  case_decide; [right; lia|].
  destruct (IH (i + 1)) as [->|?]; [by left|right; lia].
Qed.

Lemma indexOf_from_not_elem_of xs x i :
  x ∉ xs → indexOf_from xs x i = -1.
Proof.
  revert i. induction xs as [|y ys IH]; intros i Hx; simpl; [done|].
  apply not_elem_of_cons in Hx as [??].
  rewrite decide_False by done. by apply IH.
Qed.

Lemma indexOf_from_elem_of xs x i :
  0 ≤ i → x ∈ xs → 0 ≤ indexOf_from xs x i.
Proof.
  revert i. induction xs as [|y ys IH]; intros i Hi Hx; simpl.
  { by apply elem_of_nil in Hx. }
  case_decide; [done|].
  apply elem_of_cons in Hx as [->|?]; [done|]. apply IH; [lia|done].
Qed.

Lemma indexOf_not_found xs x : x ∉ xs → indexOf xs x = -1.
Proof. apply indexOf_from_not_elem_of. Qed.

Lemma indexOf_found xs x : x ∈ xs → 0 ≤ indexOf xs x.
Proof. by apply indexOf_from_elem_of. Qed.

(** ** The sort with a comparator that does not throw *)

Section sort_total.
Context {A E : Type} (comparefn : A → A → list E * completion cmp_result).
Context (value : A → A → cmp_result).
Context (Hvalue : ∀ a b, (comparefn a b).2 = Normal (value a b)).
Context (Q : A → Prop) (P : E → Prop).
Context (HP : ∀ a b, Q a → Q b → Forall P (comparefn a b).1).

Local Abbreviation cmp := (λ a b : A, cmp_number (value a b)).

Lemma runs_ret {X} (x : X) : runs P ([], Normal x) x.
Proof. by split. Qed.

Lemma runs_tbind {X Y} (c : list E * completion X)
    (k : X → list E * completion Y) x y :
  runs P c x → runs P (k x) y → runs P (tbind c k) y.
Proof.
  destruct c as [t r]. intros [Hr Ht]. simpl in Hr, Ht. subst r.
  unfold tbind. destruct (k x) as [t' r']. intros [Hr' Ht']. simpl in *.
  split; [done|]. by apply Forall_app_2.
Qed.

Lemma call_comparefn_total x y :
  Q x → Q y → runs P (call_comparefn comparefn x y) (cmp x y).
Proof using Hvalue HP.
  intros Hx Hy. unfold call_comparefn.
  eapply runs_tbind; [split; [apply Hvalue|by apply HP]|]. apply runs_ret.
Qed.

Lemma run_rest_total descending previous rest :
  Q previous → Forall Q rest →
  runs P (run_rest comparefn descending previous rest)
         (run_rest_with cmp descending previous rest).
Proof using Hvalue HP.
  intros Hp Hrest. revert previous Hp.
  induction Hrest as [|c rest Hc Hrest IH]; intros p Hp;
    cbn [run_rest run_rest_with]; [apply runs_ret|].
  eapply runs_tbind; [by apply call_comparefn_total|]. cbv zeta.
  destruct (if descending then _ else _); [apply runs_ret|].
  eapply runs_tbind; [by apply IH|apply runs_ret].
Qed.

Lemma find_position_total fuel pivot a left right :
  Q pivot → Forall Q a →
  runs P (find_position comparefn fuel pivot a left right)
         (find_position_with cmp fuel pivot a left right).
Proof using Hvalue HP.
  intros Hp Ha. revert left right.
  induction fuel as [|fuel IH]; intros left right;
    cbn [find_position find_position_with]; [apply runs_ret|].
  case_bool_decide; [|apply runs_ret]. cbv zeta.
  destruct (a !! _) as [m|] eqn:Hm; [|apply runs_ret].
  eapply runs_tbind.
  { apply call_comparefn_total; [done|]. by eapply Forall_lookup_1. }
  destruct (cmp_number (value pivot m) <? 0); apply IH.
Qed.

Lemma place_with_Forall pivot a :
  Q pivot → Forall Q a → Forall Q (place_with cmp pivot a).
Proof.
  intros Hp Ha. unfold place_with. apply Forall_app_2; [by apply Forall_take|].
  apply Forall_cons_2; [done|by apply Forall_drop].
Qed.

Lemma place_total pivot a :
  Q pivot → Forall Q a →
  runs P (place comparefn pivot a) (place_with cmp pivot a).
Proof using Hvalue HP.
  intros Hp Ha. unfold place.
  eapply runs_tbind; [by apply find_position_total|apply runs_ret].
Qed.

Lemma binary_insertion_total a rest :
  Forall Q a → Forall Q rest →
  runs P (binary_insertion comparefn a rest)
         (binary_insertion_with cmp a rest).
Proof using Hvalue HP.
  intros Ha Hrest. revert a Ha.
  induction Hrest as [|p rest Hp Hrest IH]; intros a Ha;
    cbn [binary_insertion binary_insertion_with]; [apply runs_ret|].
  eapply runs_tbind; [by apply place_total|].
  apply IH. by apply place_with_Forall.
Qed.

(** A comparator that never throws: [sort] returns, what it returns is
    [sort_with] of the comparator's numbers, and it prints nothing but what
    the comparator prints on elements of the array. *)
Lemma sort_total l : Forall Q l → runs P (sort comparefn l) (sort_with cmp l).
Proof using Hvalue HP.
  intros Hl. destruct l as [|x0 [|x1 rest]]; [apply runs_ret..|].
  pose proof Hl as Hl'.
  apply Forall_cons in Hl' as [Hx0 [Hx1 Hrest]%Forall_cons].
  unfold sort, sort_with.
  eapply runs_tbind; [by apply call_comparefn_total|]. cbv zeta.
  eapply runs_tbind; [by apply run_rest_total|].
  apply binary_insertion_total; [|by apply Forall_drop].
  destruct (_ <? 0); [apply Forall_reverse|]; by apply Forall_take.
Qed.

End sort_total.

(** ** The sequencer *)

Section Sequencer.
Variable toUpperCase : jsstring → jsstring.

(** The [catch] of the comparator turns every exception into [undefined]. *)
Lemma comparefn_value a b :
  (comparefn toUpperCase a b).2 = Normal (compare_value toUpperCase a b).
Proof.
  unfold comparefn, compare_value.
  destruct (level_index toUpperCase a), (level_index toUpperCase b); done.
Qed.

Lemma comparefn_lines a b :
  (comparefn toUpperCase a b).1 =
    if bool_decide (is_Some (a !! js "Level") ∧ is_Some (b !! js "Level"))
    then []
    else [Console (LogCompared a b); Console (LogCaught TypeError)].
Proof.
  unfold comparefn, level_index.
  destruct (a !! js "Level") as [la|], (b !! js "Level") as [lb|];
    cbv beta iota delta [cbind fst].
  - rewrite bool_decide_true; [done|]. by split; eexists.
  - rewrite bool_decide_false; [done|]. by intros [_ [? [=]]].
  - rewrite bool_decide_false; [done|]. by intros [[? [=]] _].
  - rewrite bool_decide_false; [done|]. by intros [[? [=]] _].
Qed.

Lemma sort_runs batch (P : event → Prop) :
  (∀ a b, a ∈ batch → b ∈ batch → Forall P (comparefn toUpperCase a b).1) →
  sort (comparefn toUpperCase) batch =
    ((sort (comparefn toUpperCase) batch).1,
     Normal (sort_with (order toUpperCase) batch)) ∧
  Forall P (sort (comparefn toUpperCase) batch).1.
Proof.
  intros HP.
  destruct (sort_total (comparefn toUpperCase) (compare_value toUpperCase)
              comparefn_value (.∈ batch) P HP batch) as [Hv Ht].
  { by apply Forall_forall. }
  split; [|done]. destruct (sort _ batch) as [t r]. simpl in *. by subst.
Qed.

Lemma sequencer_sort_with batch :
  sequencer toUpperCase batch = Normal (sort_with (order toUpperCase) batch).
Proof.
  unfold sequencer.
  destruct (sort_runs batch (λ _, True)) as [-> _]; [|done].
  intros a b _ _. apply Forall_forall. done.
Qed.

Lemma order_ranked a b ra rb :
  level_index toUpperCase a = Normal ra →
  level_index toUpperCase b = Normal rb →
  order toUpperCase a b = ra - rb.
Proof. unfold order, compare_value. by intros -> ->. Qed.

Lemma order_antisym a b :
  order toUpperCase a b < 0 → 0 ≤ order toUpperCase b a.
Proof.
  unfold order, compare_value.
  destruct (level_index toUpperCase a), (level_index toUpperCase b); simpl; lia.
Qed.

Lemma level_index_Level r Level :
  r !! js "Level" = Some Level →
  level_index toUpperCase r =
  Normal (indexOf locationTypesOrder (toUpperCase Level)).
Proof. unfold level_index. by intros ->. Qed.

Lemma level_index_lower r k : level_index toUpperCase r = Normal k → -1 ≤ k.
Proof.
  unfold level_index. destruct (r !! js "Level") as [l|]; [|done].
  intros [= <-]. unfold indexOf.
  destruct (indexOf_from_range locationTypesOrder (toUpperCase l) 0); lia.
Qed.

Lemma level_index_unrecognized r Level :
  r !! js "Level" = Some Level →
  toUpperCase Level ∉ locationTypesOrder →
  level_index toUpperCase r = Normal (-1).
Proof.
  intros HL Hnot. rewrite (level_index_Level r Level HL).
  by rewrite indexOf_not_found.
Qed.

Lemma level_index_recognized r Level :
  r !! js "Level" = Some Level →
  toUpperCase Level ∈ locationTypesOrder →
  ∃ k, level_index toUpperCase r = Normal k ∧ 0 ≤ k.
Proof.
  intros HL Hin. rewrite (level_index_Level r Level HL).
  eexists; split; [done|]. by apply indexOf_found.
Qed.

Lemma rank_key_ranked r k :
  level_index toUpperCase r = Normal k → rank_key toUpperCase r = k.
Proof. unfold rank_key. by intros ->. Qed.

(** For a row with a level, rank and key are the same thing. *)
Lemma rank_key_level_index r k :
  is_Some (r !! js "Level") →
  level_index toUpperCase r = Normal k ↔ rank_key toUpperCase r = k.
Proof.
  intros [l Hl]. unfold rank_key. rewrite (level_index_Level r l Hl).
  split; [by intros [= ->]|by intros ->].
Qed.

(** With a level in every row the comparator is the difference of the
    ranks: it is consistent. *)
Lemma order_key batch :
  Forall (λ r, is_Some (r !! js "Level")) batch →
  ∀ a b, a ∈ batch → b ∈ batch →
    order toUpperCase a b = rank_key toUpperCase a - rank_key toUpperCase b.
Proof.
  rewrite Forall_forall. intros Hall a b Ha Hb.
  destruct (Hall a Ha) as [la Hla], (Hall b Hb) as [lb Hlb].
  unfold rank_key.
  rewrite (level_index_Level a la), (level_index_Level b lb) by done.
  by erewrite order_ranked by by apply level_index_Level.
Qed.

(** With a level in every row the output is sorted by rank, and the rows
    of each rank keep their order. *)
Lemma sequencer_sorted batch :
  Forall (λ r, is_Some (r !! js "Level")) batch →
  StronglySorted (λ a b, rank_key toUpperCase a ≤ rank_key toUpperCase b)
    (sort_with (order toUpperCase) batch).
Proof. intros Hall. by apply sort_with_keyed, order_key. Qed.

Lemma sequencer_classes batch k :
  Forall (λ r, is_Some (r !! js "Level")) batch →
  filter (λ r, level_index toUpperCase r = Normal k)
    (sort_with (order toUpperCase) batch) =
  filter (λ r, level_index toUpperCase r = Normal k) batch.
Proof.
  intros Hall.
  assert (Forall (λ r, is_Some (r !! js "Level"))
            (sort_with (order toUpperCase) batch)) as Hall'.
  { by rewrite sort_with_perm. }
  rewrite Forall_forall in Hall, Hall'.
  rewrite (filter_ext_elem_of _ (λ r, rank_key toUpperCase r = k))
    by (intros r Hr; by apply rank_key_level_index, Hall').
  rewrite (filter_ext_elem_of _ (λ r, rank_key toUpperCase r = k) batch)
    by (intros r Hr; by apply rank_key_level_index, Hall).
  apply sort_with_keyed, order_key. by apply Forall_forall.
Qed.

(** With a level in every row, the output of the sequencer is the only list
    that is sorted by rank and keeps the rows of each rank in input order:
    any stable sort returns it. *)
Lemma sequencer_determined batch out :
  Forall (λ r, is_Some (r !! js "Level")) batch →
  StronglySorted (λ a b, rank_key toUpperCase a ≤ rank_key toUpperCase b) out →
  (∀ k, filter (λ r, rank_key toUpperCase r = k) out =
        filter (λ r, rank_key toUpperCase r = k) batch) →
  sequencer toUpperCase batch = Normal out.
Proof.
  intros Hall Hsorted Hstable. rewrite sequencer_sort_with. f_equal.
  apply (StronglySorted_stable_unique (rank_key toUpperCase));
    [by apply sequencer_sorted|done|].
  intros k. rewrite Hstable. by apply sort_with_keyed, order_key.
Qed.

Lemma sequencer_before batch i j a b ra rb :
  Forall (λ r, is_Some (r !! js "Level")) batch →
  sort_with (order toUpperCase) batch !! i = Some a →
  sort_with (order toUpperCase) batch !! j = Some b →
  level_index toUpperCase a = Normal ra →
  level_index toUpperCase b = Normal rb →
  ra < rb → (i < j)%nat.
Proof.
  intros Hall Hi Hj Ha Hb Hlt.
  eapply (StronglySorted_before (rank_key toUpperCase));
    [by apply sequencer_sorted|done..|].
  by rewrite (rank_key_ranked a ra), (rank_key_ranked b rb).
Qed.

Lemma spec_rank_indexOf tag k :
  spec_rank tag = Some k → indexOf locationTypesOrder tag = k.
Proof.
  unfold spec_rank.
  repeat (destruct (decide (tag = _)) as [->|_];
          [intros Hk; apply (inj Some) in Hk; subst k; reflexivity|]).
  done.
Qed.

Lemma spec_rank_level_index r Level k :
  r !! js "Level" = Some Level →
  spec_rank (toUpperCase Level) = Some k →
  level_index toUpperCase r = Normal k.
Proof.
  intros HL Hk. rewrite (level_index_Level r Level HL).
  by rewrite (spec_rank_indexOf _ k Hk).
Qed.

(** C1.  Ordering invariant of the sequencer.  The rank table is
    PROVINCE=0, DISTRICT=1, SECTOR=2, CELL=3, VILLAGE=4.  For a batch in
    which the level of every row upper-cases to one of these tags, the
    sequencer returns a permutation of the batch in which a row whose tag
    has the lower rank in that table stands at a smaller index than any row
    whose tag has a higher rank. *)
Theorem sequencer_orders_by_rank (batch : list row) :
  Forall (λ r, ∃ Level, r !! js "Level" = Some Level ∧
                        is_Some (spec_rank (toUpperCase Level))) batch →
  ∃ out, sequencer toUpperCase batch = Normal out ∧ out ≡ₚ batch ∧
    ∀ i j a b La Lb ra rb,
      out !! i = Some a → out !! j = Some b →
      a !! js "Level" = Some La → b !! js "Level" = Some Lb →
      spec_rank (toUpperCase La) = Some ra →
      spec_rank (toUpperCase Lb) = Some rb →
      ra < rb → (i < j)%nat.
Proof.
  intros Hrec. exists (sort_with (order toUpperCase) batch).
  split; [apply sequencer_sort_with|].
  split; [apply sort_with_perm|].
  intros i j a b La Lb ra rb Hi Hj HLa HLb Hra Hrb.
  apply (sequencer_before batch i j a b ra rb); try done.
  - eapply Forall_impl; [done|]. intros r (Level & -> & _). by eexists.
  - by apply (spec_rank_level_index a La).
  - by apply (spec_rank_level_index b Lb).
Qed.

(** C6.  Robustness to malformed levels.  For every batch the sequencer
    returns, without raising, a permutation of the batch: the comparator
    catches what its body throws and hands [sort] a value for every pair.
    A level string that upper-cases to no known tag is looked up as -1.
    When every row has a level string, the rows of rank -1 stand first in
    the output, in the order they had in the input. *)
Theorem sequencer_never_raises (batch : list row) :
  ∃ out, sequencer toUpperCase batch = Normal out ∧ out ≡ₚ batch ∧
    (∀ a b, ∃ v, (comparefn toUpperCase a b).2 = Normal v) ∧
    (∀ r Level, r !! js "Level" = Some Level →
       toUpperCase Level ∉ locationTypesOrder →
       level_index toUpperCase r = Normal (-1)) ∧
    (Forall (λ r, is_Some (r !! js "Level")) batch →
     out = filter (λ r, level_index toUpperCase r = Normal (-1)) batch ++
           filter (λ r, level_index toUpperCase r ≠ Normal (-1)) out).
Proof.
  exists (sort_with (order toUpperCase) batch).
  split; [apply sequencer_sort_with|].
  split; [apply sort_with_perm|].
  split; [intros a b; eexists; apply comparefn_value|].
  split; [apply level_index_unrecognized|].
  intros Hall.
  pose proof (sequencer_sorted batch Hall) as Hsorted.
  rewrite (StronglySorted_split _ _ (-1) Hsorted) at 1.
  assert (Forall (λ r, is_Some (r !! js "Level"))
            (sort_with (order toUpperCase) batch)) as Hall'.
  { by rewrite sort_with_perm. }
  rewrite Forall_forall in Hall'.
  f_equal.
  - rewrite <-(sequencer_classes batch (-1) Hall).
    apply filter_ext_elem_of. intros r Hr.
    destruct (Hall' r Hr) as [l Hl].
    rewrite (rank_key_level_index r (-1)) by by eexists.
    pose proof (level_index_lower r _ (level_index_Level r l Hl)) as Hlow.
    rewrite <-(rank_key_ranked r _ (level_index_Level r l Hl)) in Hlow. lia.
  - apply filter_ext_elem_of. intros r Hr.
    destruct (Hall' r Hr) as [l Hl].
    rewrite (rank_key_level_index r (-1)) by by eexists.
    pose proof (level_index_lower r _ (level_index_Level r l Hl)) as Hlow.
    rewrite <-(rank_key_ranked r _ (level_index_Level r l Hl)) in Hlow. lia.
Qed.

(** X21.  Idempotent sequencing.  For a batch of fewer than 64 rows, and
    for a batch of any length in which every row has a level string, running the
    sequencer on its own output returns that output unchanged, so the
    relative order of any two rows, differently ranked or not, is the same
    after two runs as after one.  For the short batch this is the engine's
    run detection: the output has no row below the one before it, so it is
    one run and is left as it is.  With a level in every row the output is
    the only stable sorted list.  The hypothesis keeps the statement to the
    arrays for which [sort] is the engine's algorithm. *)
Theorem sequencer_idempotent (batch : list row) :
  short batch ∨ Forall (λ r, is_Some (r !! js "Level")) batch →
  ∃ out, sequencer toUpperCase batch = Normal out ∧ out ≡ₚ batch ∧
         sequencer toUpperCase out = Normal out.
Proof.
  intros _. exists (sort_with (order toUpperCase) batch).
  split; [apply sequencer_sort_with|]. split; [apply sort_with_perm|].
  rewrite sequencer_sort_with. f_equal.
  apply sort_with_idemp, order_antisym.
Qed.

(** C10, as amended.  Equal-rank stability.  For a batch in which every
    row has a level string, and for every rank [k], the rows of rank [k]
    appear in the output of the sequencer in the order they have in the
    input. *)
Theorem sequencer_stable (batch : list row) :
  Forall (λ r, is_Some (r !! js "Level")) batch →
  ∃ out, sequencer toUpperCase batch = Normal out ∧
    ∀ k, filter (λ r, level_index toUpperCase r = Normal k) out =
         filter (λ r, level_index toUpperCase r = Normal k) batch.
Proof.
  intros Hall. exists (sort_with (order toUpperCase) batch).
  split; [apply sequencer_sort_with|].
  intros k. by apply sequencer_classes.
Qed.

(** C9, as amended.  A level string that upper-cases to no known tag gets
    rank -1.  For a batch in which every row has a level string, every such
    row stands, in the output of the sequencer, at a smaller index than
    every row whose level is a known tag. *)
Theorem unrecognized_levels_sort_first (batch : list row) :
  Forall (λ r, is_Some (r !! js "Level")) batch →
  (∀ r Level, r !! js "Level" = Some Level →
     toUpperCase Level ∉ locationTypesOrder →
     level_index toUpperCase r = Normal (-1)) ∧
  ∃ out, sequencer toUpperCase batch = Normal out ∧ out ≡ₚ batch ∧
    ∀ i j a b La Lb,
      out !! i = Some a → out !! j = Some b →
      a !! js "Level" = Some La → toUpperCase La ∉ locationTypesOrder →
      b !! js "Level" = Some Lb → toUpperCase Lb ∈ locationTypesOrder →
      (i < j)%nat.
Proof.
  intros Hall. split; [apply level_index_unrecognized|].
  exists (sort_with (order toUpperCase) batch).
  split; [apply sequencer_sort_with|].
  split; [apply sort_with_perm|].
  intros i j a b La Lb Hi Hj HLa Hnot HLb Hin.
  destruct (level_index_recognized b Lb HLb Hin) as (k & Hk & Hpos).
  eapply (sequencer_before batch i j a b (-1) k); try done; [|lia].
  by eapply level_index_unrecognized.
Qed.

End Sequencer.

(** ** Facts about [encodeURIComponent] *)

Ltac Zify.zify_post_hook ::= Z.to_euclidean_division_equations.

Lemma encode_induction (P : jsstring → Prop) :
  P [] →
  (∀ c s, P s → (∀ d s', s = d :: s' → P s') → P (c :: s)) →
  ∀ s, P s.
Proof.
  intros Hnil Hcons s.
  cut (P s ∧ ∀ d s', s = d :: s' → P s'); [by intros [??]|].
  induction s as [|c s [IH1 IH2]]; [done|].
  split; [by apply Hcons|]. by intros d s' [= _ <-].
Qed.

Lemma encodeURIComponent_cons_inv c s q :
  encodeURIComponent (c :: s) = Normal q →
  (unescaped c = true ∧
     ∃ r, encodeURIComponent s = Normal r ∧ q = c :: r) ∨
  (unescaped c = false ∧ is_lead c = true ∧
     ∃ d s' r, s = d :: s' ∧ is_trail d = true ∧
       encodeURIComponent s' = Normal r ∧
       q = escape (0x10000 + (c - 0xD800) * 0x400 + (d - 0xDC00))%N ++ r) ∨
  (unescaped c = false ∧ is_surrogate c = false ∧
     ∃ r, encodeURIComponent s = Normal r ∧ q = escape c ++ r).
Proof.
  cbn [encodeURIComponent]. unfold is_surrogate.
  destruct (unescaped c).
  { destruct (encodeURIComponent s) as [r|]; [|done].
    intros [= <-]. left. eauto. }
  destruct (is_lead c).
  { destruct s as [|d s']; [done|]. destruct (is_trail d) eqn:Hd; [|done].
    destruct (encodeURIComponent s') as [r|] eqn:Hr; [|done].
    intros [= <-]. right; left. do 2 (split; [done|]). by exists d, s', r. }
  destruct (is_trail c); [done|].
  destruct (encodeURIComponent s) as [r|]; [|done].
  intros [= <-]. right; right. eauto.
Qed.

Lemma hex_digit_unescaped n : (n < 16)%N → unescaped (hex_digit n) = true.
Proof.
  intros Hn. assert (n ∈ (N.of_nat <$> seq 0 16)) as Hin.
  { apply list_elem_of_fmap. exists (N.to_nat n). split; [lia|].
    apply elem_of_seq. lia. }
  revert Hin. cbn [seq fmap list_fmap].
  rewrite !elem_of_cons, elem_of_nil.
  intros H. by repeat (destruct H as [->|H]; [done|]).
Qed.

Lemma hex_digit_inj a b :
  (a < 16)%N → (b < 16)%N → hex_digit a = hex_digit b → a = b.
Proof.
  unfold hex_digit. intros Ha Hb.
  destruct (N.ltb_spec a 10), (N.ltb_spec b 10); lia.
Qed.

Lemma utf8_octets cp : (cp < 0x110000)%N → Forall (λ o, o < 256)%N (utf8 cp).
Proof.
  intros Hcp. unfold utf8.
  destruct (N.ltb_spec cp 0x80); [|destruct (N.ltb_spec cp 0x800);
    [|destruct (N.ltb_spec cp 0x10000)]];
    repeat (apply Forall_cons_2 || apply Forall_nil_2); cbv beta; lia.
Qed.

Lemma escape_alphabet cp :
  (cp < 0x110000)%N →
  Forall (λ c, unescaped c = true ∨ c = 0x25%N) (escape cp).
Proof.
  intros Hcp. unfold escape. apply Forall_bind.
  eapply Forall_impl; [by apply utf8_octets|].
  intros o Ho. unfold percent.
  repeat apply Forall_cons_2; [by right|left..|apply Forall_nil_2];
    apply hex_digit_unescaped; cbv beta in *; lia.
Qed.

Lemma code_units_cons c s :
  code_units (c :: s) = true ↔ (c < 0x10000)%N ∧ code_units s = true.
Proof.
  unfold code_units. cbn [forallb]. rewrite andb_true_iff.
  by rewrite N.ltb_lt.
Qed.

Lemma surrogate_pair_bounds c d :
  is_lead c = true → is_trail d = true →
  (0x10000 <= 0x10000 + (c - 0xD800) * 0x400 + (d - 0xDC00) < 0x110000)%N.
Proof.
  unfold is_lead, is_trail. rewrite !andb_true_iff, !N.leb_le. lia.
Qed.

Lemma encodeURIComponent_alphabet s :
  ∀ q, code_units s = true → encodeURIComponent s = Normal q →
       Forall (λ c, unescaped c = true ∨ c = 0x25%N) q.
Proof.
  induction s as [|c s IH1 IH2] using encode_induction; intros q Hs Hq.
  { injection Hq as <-. apply Forall_nil_2. }
  apply code_units_cons in Hs as [Hc Hs].
  destruct (encodeURIComponent_cons_inv _ _ _ Hq)
    as [(Hu & r & Hr & ->)|[(_ & Hl & d & s' & r & -> & Hd & Hr & ->)
       |(_ & _ & r & Hr & ->)]].
  - apply Forall_cons_2; [by left|by apply IH1].
  - apply code_units_cons in Hs as [_ Hs].
    apply Forall_app_2; [|by apply (IH2 d s')].
    apply escape_alphabet. by apply surrogate_pair_bounds.
  - apply Forall_app_2; [|by apply IH1]. apply escape_alphabet. lia.
Qed.

Lemma encodeURIComponent_throws s :
  ∀ e, encodeURIComponent s = Throw e →
       e = URIError ∧ Exists (λ c, is_surrogate c = true) s.
Proof.
  induction s as [|c s IH1 IH2] using encode_induction; intros e; [done|].
  cbn [encodeURIComponent]. unfold is_surrogate at 1.
  destruct (unescaped c).
  { destruct (encodeURIComponent s) as [r|e'] eqn:Hr; [done|].
    intros [= <-]. destruct (IH1 _ eq_refl) as [-> ?].
    split; [done|]. by apply Exists_cons_tl. }
  destruct (is_lead c) eqn:Hl.
  { assert (is_surrogate c = true) as Hc by (unfold is_surrogate; by rewrite Hl).
    destruct s as [|d s'].
    { intros [= <-]. split; [done|]. by apply Exists_cons_hd. }
    destruct (is_trail d).
    - destruct (encodeURIComponent s') as [r|e'] eqn:Hr; [done|].
      intros [= <-]. destruct (IH2 d s' eq_refl _ Hr) as [-> ?].
      split; [done|]. by apply Exists_cons_hd.
    - intros [= <-]. split; [done|]. by apply Exists_cons_hd. }
  destruct (is_trail c) eqn:Ht.
  { assert (is_surrogate c = true) as Hc
      by (unfold is_surrogate; by rewrite Hl, Ht).
    intros [= <-]. split; [done|]. by apply Exists_cons_hd. }
  destruct (encodeURIComponent s) as [r|e'] eqn:Hr; [done|].
  intros [= <-]. destruct (IH1 _ eq_refl) as [-> ?].
  split; [done|]. by apply Exists_cons_tl.
Qed.

Lemma encodeURIComponent_succeeds s :
  Forall (λ c, is_surrogate c = false) s →
  ∃ q, encodeURIComponent s = Normal q.
Proof.
  induction 1 as [|c s Hc _ [q Hq]]; [by eexists|].
  apply orb_false_iff in Hc as [Hl Ht].
  cbn [encodeURIComponent]. rewrite Hl, Ht, Hq.
  destruct (unescaped c); by eexists.
Qed.

Lemma percent_app_inj o1 o2 r1 r2 :
  (o1 < 256)%N → (o2 < 256)%N →
  percent o1 ++ r1 = percent o2 ++ r2 → o1 = o2 ∧ r1 = r2.
Proof.
  intros H1 H2. unfold percent. intros [= Hh Hl Hr].
  apply hex_digit_inj in Hh; [|lia..]. apply hex_digit_inj in Hl; [|lia..].
  split; [lia|done].
Qed.

Lemma escape_head cp : ∃ t, escape cp = 0x25%N :: t.
Proof.
  unfold escape, utf8.
  destruct (cp <? 0x80)%N; [|destruct (cp <? 0x800)%N;
    [|destruct (cp <? 0x10000)%N]]; rewrite bind_cons; by eexists.
Qed.

Lemma escape_app_inj cp1 cp2 r1 r2 :
  (cp1 < 0x110000)%N → (cp2 < 0x110000)%N →
  escape cp1 ++ r1 = escape cp2 ++ r2 → cp1 = cp2 ∧ r1 = r2.
Proof.
  intros H1 H2. unfold escape, utf8.
  destruct (N.ltb_spec cp1 0x80); [|destruct (N.ltb_spec cp1 0x800);
    [|destruct (N.ltb_spec cp1 0x10000)]];
  (destruct (N.ltb_spec cp2 0x80); [|destruct (N.ltb_spec cp2 0x800);
    [|destruct (N.ltb_spec cp2 0x10000)]]);
  rewrite ?bind_cons, ?bind_nil, <-?(assoc_L (++)); intros Heq;
  repeat match goal with
         | H : percent _ ++ _ = percent _ ++ _ |- _ =>
             apply percent_app_inj in H as [? H]; [|lia..]
         end;
  first [lia | split; [lia|exact Heq]].
Qed.

Lemma encodeURIComponent_inj s1 :
  ∀ s2 q, code_units s1 = true → code_units s2 = true →
    encodeURIComponent s1 = Normal q → encodeURIComponent s2 = Normal q →
    s1 = s2.
Proof.
  assert (∀ c s q, encodeURIComponent (c :: s) = Normal q → q ≠ []) as Hne.
  { intros c s q Hq.
    destruct (encodeURIComponent_cons_inv _ _ _ Hq)
      as [(_ & r & _ & ->)|[(_ & _ & d & s' & r & _ & _ & _ & ->)
         |(_ & _ & r & _ & ->)]]; [done|..];
      match goal with
      | |- escape ?cp ++ _ ≠ _ => by destruct (escape_head cp) as [t ->]
      end. }
  assert (∀ c r cp r',
    unescaped c = true → c :: r = escape cp ++ r' → False) as Hmix.
  { intros c r cp r' Hu. destruct (escape_head cp) as [t ->].
    intros [= -> _]. done. }
  induction s1 as [|c1 s1 IH1 IH2] using encode_induction;
    intros [|c2 s2] q Hs1 Hs2 Hq1 Hq2; [done|..].
  { injection Hq1 as <-. by destruct (Hne _ _ _ Hq2). }
  { injection Hq2 as <-. by destruct (Hne _ _ _ Hq1). }
  apply code_units_cons in Hs1 as [Hc1 Hs1].
  apply code_units_cons in Hs2 as [Hc2 Hs2].
  destruct (encodeURIComponent_cons_inv _ _ _ Hq1)
    as [(Hu1 & r1 & Hr1 & ->)|[(_ & Hl1 & d1 & s1' & r1 & -> & Hd1 & Hr1 & ->)
       |(_ & Hn1 & r1 & Hr1 & ->)]];
  destruct (encodeURIComponent_cons_inv _ _ _ Hq2)
    as [(Hu2 & r2 & Hr2 & Heq)|[(_ & Hl2 & d2 & s2' & r2 & -> & Hd2 & Hr2 & Heq)
       |(_ & Hn2 & r2 & Hr2 & Heq)]].
  - injection Heq as -> ->. f_equal. by apply (IH1 s2 r2).
  - by destruct (Hmix _ _ _ _ Hu1 Heq).
  - by destruct (Hmix _ _ _ _ Hu1 Heq).
  - by destruct (Hmix _ _ _ _ Hu2 (eq_sym Heq)).
  - apply code_units_cons in Hs1 as [_ Hs1].
    apply code_units_cons in Hs2 as [_ Hs2].
    pose proof (surrogate_pair_bounds _ _ Hl1 Hd1).
    pose proof (surrogate_pair_bounds _ _ Hl2 Hd2).
    apply escape_app_inj in Heq as [Hcp ->]; [|lia..].
    unfold is_lead, is_trail in *.
    rewrite !andb_true_iff, !N.leb_le in *.
    assert (c1 = c2 ∧ d1 = d2) as [-> ->] by lia.
    do 2 f_equal. by apply (IH2 d2 s1' eq_refl s2' r2).
  - pose proof (surrogate_pair_bounds _ _ Hl1 Hd1).
    apply escape_app_inj in Heq as [Hcp _]; lia.
  - by destruct (Hmix _ _ _ _ Hu2 (eq_sym Heq)).
  - pose proof (surrogate_pair_bounds _ _ Hl2 Hd2).
    apply escape_app_inj in Heq as [Hcp _]; lia.
  - apply escape_app_inj in Heq as [-> ->]; [|lia..].
    f_equal. by apply (IH1 s2 r2).
Qed.

Ltac Zify.zify_post_hook ::= idtac.

(** ** The publisher *)

Lemma posts_app t1 t2 : posts (t1 ++ t2) = posts t1 ++ posts t2.
Proof. apply omap_app. Qed.


Lemma posts_consoles t :
  Forall (λ ev, ∃ line, ev = Console line) t → posts t = [].
Proof. induction 1 as [|ev t [line ->] _ IH]; [done|]. exact IH. Qed.


Lemma tbind_eq {E A B} (c : list E * completion A)
    (k : A → list E * completion B) :
  tbind c k =
  match c.2 with
  | Normal a => (c.1 ++ (k a).1, (k a).2)
  | Throw e => (c.1, Throw e)
  end.
Proof. destruct c as [t [a|e]]; [|done]. simpl. by destruct (k a). Qed.

(** An attempt logs its line, makes its call, and logs the outcome unless
    the reply breaks. *)
Lemma attempt_eq net i location url body :
  ∃ outcome,
    (attempt net i location url body).1 =
      [Console (LogAttempting location); Post url body] ++ outcome ∧
    Forall (λ ev, ∃ line, ev = Console line) outcome ∧
    (breaks (net i url body) = false →
     (attempt net i location url body).2 = Normal () ∧ length outcome = 1%nat) ∧
    (breaks (net i url body) = true →
     (∃ e, (attempt net i location url body).2 = Throw e) ∧ outcome = []).
Proof.
  unfold attempt, breaks.
  destruct (net i url body) as [data|status data|m|m];
    try destruct (ToString data) as [text|error];
    cbn [fst snd];
    eexists; (split; [reflexivity|]);
    (split; [repeat constructor; by eexists|]);
    (split; [intros ?; by try split|intros ?; try done]).
  split; [by eexists|done].
Qed.

Lemma attempt_posts net i location url body :
  posts (attempt net i location url body).1 = [(url, body)].
Proof.
  destruct (attempt_eq net i location url body) as (o & -> & Ho & _).
  rewrite posts_app, (posts_consoles o Ho). done.
Qed.


Lemma attempt_normal net i location url body :
  breaks (net i url body) = false →
  (attempt net i location url body).2 = Normal ().
Proof.
  destruct (attempt_eq net i location url body) as (o & _ & _ & Hn & _).
  intros Hb. by destruct (Hn Hb).
Qed.

Section Publisher.
Variable toUpperCase : jsstring → jsstring.
Hypothesis toUpperCase_ascii :
  ∀ s, forallb is_ascii s = true → toUpperCase s = toUpperCase_ascii_only s.

Set Default Proof Using "Type".

Lemma iteration_eq net i location :
  iteration toUpperCase net i location =
  match build_request toUpperCase location with
  | Throw e => ([], Throw e)
  | Normal (apiUrl, body) =>
      match (attempt net i location apiUrl body).2 with
      | Normal _ =>
          ((attempt net i location apiUrl body).1 ++ [Sleep 100], Normal ())
      | Throw e => ((attempt net i location apiUrl body).1, Throw e)
      end
  end.
Proof.
  unfold iteration.
  destruct (build_request toUpperCase location) as [[url body]|]; [|done].
  rewrite tbind_eq. by destruct (attempt net i location url body).2.
Qed.

Lemma publish_cons net i location rest :
  publish toUpperCase net i (location :: rest) =
  match build_request toUpperCase location with
  | Throw e => ([], Throw e)
  | Normal (apiUrl, body) =>
      match (attempt net i location apiUrl body).2 with
      | Normal _ =>
          ((attempt net i location apiUrl body).1 ++
             Sleep 100 :: (publish toUpperCase net (S i) rest).1,
           (publish toUpperCase net (S i) rest).2)
      | Throw e => ((attempt net i location apiUrl body).1, Throw e)
      end
  end.
Proof.
  cbn [publish]. rewrite tbind_eq, iteration_eq.
  destruct (build_request toUpperCase location) as [[url body]|]; [|done].
  destruct (attempt net i location url body).2; [|done].
  cbn [fst snd]. by rewrite <-(assoc_L (++)).
Qed.

(** The requests sent are those of the leading rows, one each, in order. *)
Lemma publish_posts net i batch :
  Forall2 (λ location req, build_request toUpperCase location = Normal req)
    (take (length (posts (publish toUpperCase net i batch).1)) batch)
    (posts (publish toUpperCase net i batch).1).
Proof.
  revert i. induction batch as [|location rest IH]; intros i; [constructor|].
  rewrite publish_cons.
  destruct (build_request toUpperCase location) as [[url body]|] eqn:Hreq;
    [|constructor].
  destruct (attempt net i location url body).2;
    cbn [fst snd].
  - rewrite posts_app, attempt_posts. simpl. constructor; [done|]. apply IH.
  - rewrite attempt_posts. simpl. rewrite take_0. by repeat constructor.
Qed.

(** When a request can be built for every row and no reply breaks, the loop
    goes through the whole batch. *)
Lemma publish_complete net i batch :
  Forall (λ location, ∃ req, build_request toUpperCase location = Normal req)
    batch →
  (∀ j url body, breaks (net j url body) = false) →
  (publish toUpperCase net i batch).2 = Normal () ∧
  length (posts (publish toUpperCase net i batch).1) = length batch.
Proof.
  intros Hall Hnet. revert i.
  induction Hall as [|location rest [[url body] Hreq] Hall IH]; intros i; [done|].
  rewrite publish_cons, Hreq, attempt_normal by done.
  cbn [fst snd]. rewrite posts_app, attempt_posts.
  destruct (IH (S i)) as [-> Hlen]. split; [done|]. simpl. by rewrite Hlen.
Qed.

(** Then the trace is one [iteration] after the other. *)
Lemma publish_trace net i batch :
  Forall (λ location, ∃ req, build_request toUpperCase location = Normal req)
    batch →
  (∀ j url body, breaks (net j url body) = false) →
  (publish toUpperCase net i batch).1 =
  mjoin (imap (λ j location, (iteration toUpperCase net (i + j) location).1)
           batch).
Proof.
  intros Hall Hnet. revert i.
  induction Hall as [|location rest [[url body] Hreq] Hall IH]; intros i; [done|].
  rewrite publish_cons, Hreq, attempt_normal by done.
  cbn [fst snd]. rewrite IH. cbn [imap mjoin list_join].
  rewrite iteration_eq, Hreq, attempt_normal, Nat.add_0_r by done.
  cbn [fst snd]. rewrite <-(assoc_L (++)). do 3 f_equal.
  apply imap_ext. intros j x _. simpl. do 2 f_equal. lia.
Qed.

(** [populateLocations] with the sort taken out: what the comparator
    printed, the opening line, the loop over the sorted rows, and the
    closing line if the loop ends normally. *)
Lemma populateLocations_eq net batch :
  populateLocations toUpperCase net batch =
  let t0 := (sort (comparefn toUpperCase) batch).1 in
  match publish toUpperCase net 0 (sort_with (order toUpperCase) batch) with
  | (t, Normal _) =>
      (t0 ++ Console LogStarting :: t ++ [Console LogFinished], Normal ())
  | (t, Throw e) => (t0 ++ Console LogStarting :: t, Throw e)
  end.
Proof.
  unfold populateLocations.
  destruct (sort_runs toUpperCase batch (λ _, True)) as [Heq _].
  { intros a b _ _. by apply Forall_forall. }
  rewrite Heq at 1. rewrite tbind_eq. cbn [fst snd].
  by destruct (publish toUpperCase net 0 _) as [t [[]|e]].
Qed.

(** The lines the sort prints are the comparator's, and it prints none
    when every row has a level. *)
Lemma sort_lines batch :
  Forall caught_line (sort (comparefn toUpperCase) batch).1.
Proof.
  apply sort_runs. intros a b _ _. rewrite comparefn_lines.
  case_bool_decide as Hlevels; [apply Forall_nil_2|].
  apply Forall_cons_2; [|apply Forall_cons_2; [by right|apply Forall_nil_2]].
  left. exists a, b. split; [done|].
  destruct (a !! js "Level"), (b !! js "Level"); try (by left); try (by right).
  destruct Hlevels. by split; eexists.
Qed.


Lemma sort_consoles batch :
  Forall (λ ev, ∃ line, ev = Console line)
    (sort (comparefn toUpperCase) batch).1.
Proof.
  eapply Forall_impl; [apply sort_lines|].
  intros ev [(a & b & -> & _)| ->]; by eexists.
Qed.

Lemma populateLocations_posts net batch :
  posts (populateLocations toUpperCase net batch).1 =
  posts (publish toUpperCase net 0 (sort_with (order toUpperCase) batch)).1.
Proof.
  rewrite populateLocations_eq. cbv zeta.
  destruct (publish toUpperCase net 0 _) as [t [[]|e]];
    cbn [fst snd];
    rewrite posts_app, (posts_consoles _ (sort_consoles batch)), app_nil_l.
  - change (posts (Console LogStarting :: ?x)) with (posts x).
    rewrite posts_app. apply app_nil_r.
  - done.
Qed.

Lemma build_request_inv location url body :
  build_request toUpperCase location = Normal (url, body) →
  ∃ Level, location !! js "Level" = Some Level ∧
    body = Payload (location !! js "LocationCode") (toUpperCase Level)
                   (location !! js "LocationName") ∧
    match location !! js "ParentCode" with
    | Some (c :: ParentCode) =>
        ∃ q, encodeURIComponent (c :: ParentCode) = Normal q ∧
             url = API_BASE_URL ++ js "/saveLocation" ++ js "?parentCode=" ++ q
    | _ => url = API_BASE_URL ++ js "/saveLocation"
    end.
Proof.
  unfold build_request.
  destruct (location !! js "Level") as [Level|]; [|done].
  intros Hreq. exists Level. split; [done|].
  destruct (location !! js "ParentCode") as [[|c ParentCode]|].
  - rewrite bool_decide_false in Hreq by (simpl; lia).
    by injection Hreq as <- <-.
  - rewrite bool_decide_true in Hreq by (simpl; lia).
    destruct (encodeURIComponent (c :: ParentCode)) as [q|]; [|done].
    unfold cbind in Hreq. injection Hreq as <- <-. split; [done|]. exists q.
    split; [done|]. reflexivity.
  - by injection Hreq as <- <-.
Qed.

Lemma toUpperCase_province : toUpperCase (js "province") = js "PROVINCE".
Proof using toUpperCase_ascii. by rewrite toUpperCase_ascii. Qed.


Lemma build_request_kigali :
  build_request toUpperCase kigali =
  Normal (js "http://localhost:8081/api/hec/location/saveLocation",
          {| locationCode := Some (js "RW01");
             locationType := js "PROVINCE";
             locationName := Some (js "Kigali") |}).
Proof using toUpperCase_ascii.
  unfold build_request.
  replace (kigali !! js "Level") with (Some (js "province"))
    by (vm_compute; reflexivity).
  rewrite toUpperCase_province. reflexivity.
Qed.


(** A batch of one row: nothing to sort, one pass of the loop. *)
Lemma populateLocations_one net location req :
  build_request toUpperCase location = Normal req →
  posts (populateLocations toUpperCase net [location]).1 = [req].
Proof.
  intros Hreq. rewrite populateLocations_posts.
  change (sort_with (order toUpperCase) [location]) with [location].
  rewrite publish_cons, Hreq. destruct req as [url body].
  destruct (attempt net 0 location url body).2; cbn [fst snd].
  - rewrite posts_app, attempt_posts. done.
  - by rewrite attempt_posts.
Qed.


(** C4.  Payload shape.  Every request sent carries, for its row, the
    body [{locationCode: LocationCode, locationType: Level upper-cased,
    locationName: LocationName}] and nothing else.  For the row
    province, RW01, Kigali with an empty ParentCode the one request goes to
    [.../saveLocation], without a query, with the body
    [{locationCode: "RW01", locationType: "PROVINCE", locationName: "Kigali"}]. *)
Theorem payload_shape (net : network) (batch : list row) :
  Forall2 (λ location req, ∃ Level,
             location !! js "Level" = Some Level ∧
             req.2 = {| locationCode := location !! js "LocationCode";
                        locationType := toUpperCase Level;
                        locationName := location !! js "LocationName" |})
    (take (length (posts (publish toUpperCase net 0 batch).1)) batch)
    (posts (publish toUpperCase net 0 batch).1) ∧
  posts (populateLocations toUpperCase net [kigali]).1 =
    [(js "http://localhost:8081/api/hec/location/saveLocation",
      {| locationCode := Some (js "RW01");
         locationType := js "PROVINCE";
         locationName := Some (js "Kigali") |})].
Proof using toUpperCase_ascii.
  split.
  - eapply Forall2_impl; [apply publish_posts|].
    intros location [url body] Hreq.
    destruct (build_request_inv _ _ _ Hreq) as (Level & ? & ? & _). eauto.
  - apply populateLocations_one, build_request_kigali.
Qed.


End Publisher.

(** ** The loader *)

Lemma trimStart_spec s :
  ∃ before, s = before ++ trimStart s ∧
    forallb is_whitespace before = true ∧
    from_option is_whitespace false (head (trimStart s)) = false.
Proof.
  induction s as [|c s (before & Hs & Hws & Hhd)]; simpl.
  { by exists []. }
  destruct (is_whitespace c) eqn:Hc.
  - exists (c :: before). simpl. rewrite Hc, Hws. by rewrite <-Hs.
  - by exists [].
Qed.

Lemma trimEnd_spec s :
  ∃ after, s = trimEnd s ++ after ∧
    forallb is_whitespace after = true ∧
    from_option is_whitespace false (last (trimEnd s)) = false.
Proof.
  unfold trimEnd.
  destruct (trimStart_spec (reverse s)) as (before & Hs & Hws & Hhd).
  exists (reverse before). split; [|split].
  - by rewrite <-reverse_app, <-Hs, reverse_involutive.
  - rewrite forallb_forall in Hws. apply forallb_forall.
    intros c Hc%list_elem_of_In. rewrite elem_of_reverse in Hc.
    by apply Hws, list_elem_of_In.
  - by rewrite last_reverse.
Qed.

(** [trim] takes white space, and nothing else, off both ends. *)
Lemma trim_spec s :
  ∃ before after, s = before ++ trim s ++ after ∧
    forallb is_whitespace before = true ∧
    forallb is_whitespace after = true ∧
    from_option is_whitespace false (head (trim s)) = false ∧
    from_option is_whitespace false (last (trim s)) = false.
Proof.
  unfold trim.
  destruct (trimStart_spec s) as (before & Hs & Hb & Hhd).
  destruct (trimEnd_spec (trimStart s)) as (after & Ht & Ha & Hlast).
  exists before, after. split; [by rewrite <-Ht|].
  do 2 (split; [done|]). split.
  - rewrite Ht in Hhd. by destruct (trimEnd (trimStart s)).
  - done.
Qed.

Lemma emit_data_results rows results :
  (emit_data rows results).2 =
  results ++ ((λ data : row, trim <$> data) <$> rows).
Proof.
  revert results. induction rows as [|data rows IH]; intros results; simpl.
  { by rewrite app_nil_r. }
  specialize (IH (results ++ [trim <$> data])).
  destruct (emit_data rows _) as [t' r']. simpl in *.
  by rewrite IH, <-(assoc_L (++)).
Qed.

(** While the file is read the console shows the rows, and nothing else
    happens. *)
Lemma emit_data_trace rows results :
  Forall (λ ev, ∃ data, ev = Console (LogRow data)) (emit_data rows results).1.
Proof.
  revert results. induction rows as [|data rows IH]; intros results; simpl.
  { constructor. }
  specialize (IH (results ++ [trim <$> data])).
  destruct (emit_data rows _) as [t' r']. simpl in *.
  constructor; [by eexists|done].
Qed.

Lemma posts_rows t :
  Forall (λ ev, ∃ data, ev = Console (LogRow data)) t → posts t = [].
Proof. induction 1 as [|ev t [data ->] _ IH]; [done|]. apply IH. Qed.

Lemma emit_data_posts rows results : posts (emit_data rows results).1 = [].
Proof. apply posts_rows, emit_data_trace. Qed.

Lemma readCsvFile_resolves rows :
  (readCsvFile (Ends rows)).2 = Resolved ((λ data : row, trim <$> data) <$> rows).
Proof.
  unfold readCsvFile. pose proof (emit_data_results rows []) as Hr.
  destruct (emit_data rows []) as [t results]. simpl in *. by subst.
Qed.

(** C8.  Field trimming.  When the parser reaches the end of the file the
    loader resolves, and the records it hands downstream are the parsed
    rows, in order, with every cell replaced by its [trim]: the cell without
    its leading and trailing white space, so that it neither starts nor ends
    with a white-space character.  Rows are handed downstream in no other
    case.  A row whose LocationName cell is ["  Kigali  "] is loaded with
    the LocationName ["Kigali"]. *)
Theorem loader_trims_fields (rows : list row) :
  (∃ results, (readCsvFile (Ends rows)).2 = Resolved results ∧
     results = (λ data : row, trim <$> data) <$> rows ∧
     Forall2 (λ data loaded : row,
                ∀ key, loaded !! key = trim <$> data !! key) rows results ∧
     ∀ loaded key cell, loaded ∈ results → loaded !! key = Some cell →
       from_option is_whitespace false (head cell) = false ∧
       from_option is_whitespace false (last cell) = false) ∧
  (∀ file results, (readCsvFile file).2 = Resolved results →
     ∃ rows', file = Ends rows') ∧
  (∀ s, ∃ before after, s = before ++ trim s ++ after ∧
     forallb is_whitespace before = true ∧
     forallb is_whitespace after = true ∧
     from_option is_whitespace false (head (trim s)) = false ∧
     from_option is_whitespace false (last (trim s)) = false) ∧
  (readCsvFile (Ends [ {[ js "LocationName" := js "  Kigali  " ]} ])).2 =
    Resolved [ {[ js "LocationName" := js "Kigali" ]} ].
Proof.
  split; [|split; [|split; [apply trim_spec|]]].
  - eexists. split; [apply readCsvFile_resolves|]. split; [done|]. split.
    + apply Forall2_fmap_r, Forall_Forall2_diag, Forall_forall.
      intros data _ key. apply lookup_fmap.
    + intros loaded key cell (data & -> & _)%list_elem_of_fmap.
      rewrite lookup_fmap. destruct (data !! key) as [s|]; [|done].
      intros [= <-]. by destruct (trim_spec s) as (? & ? & _ & _ & _ & ? & ?).
  - intros [before e|before e|rows'] results; simpl.
    + by destruct (emit_data before []).
    + by destruct (emit_data before []).
    + eauto.
  - rewrite readCsvFile_resolves. cbn [fmap list_fmap].
    by rewrite map_fmap_singleton.
Qed.

(** ** The whole run *)

Section Run.
Variable toUpperCase : jsstring → jsstring.

(** C3.  Load failure is fatal.  When the file cannot be opened or read,
    the read stream emits ['error']; no listener is registered on that
    stream, so the error reaches the runtime as an uncaught exception.  The
    run ends there with a non-zero exit status.  Up to that point the
    console has shown the rows parsed so far and nothing else: neither the
    listener of line 48 nor the [catch] of [main] has run, and no request
    has been sent. *)
Theorem load_failure_is_fatal (before : list row) (e : exn) (net : network) :
  (main toUpperCase (ReadFails before e) net).2 = Died e ∧
  exit_status (main toUpperCase (ReadFails before e) net).2 ≠ 0 ∧
  Forall (λ ev, ∃ data, ev = Console (LogRow data))
    (main toUpperCase (ReadFails before e) net).1 ∧
  posts (main toUpperCase (ReadFails before e) net).1 = [].
Proof.
  unfold main. simpl.
  pose proof (emit_data_trace before []) as Ht.
  destruct (emit_data before []) as [t r]. simpl in *.
  rewrite app_nil_r. do 2 (split; [done|]).
  split; [done|by apply posts_rows].
Qed.

(** A failure of the parser takes the other road: the listener of line 48
    rejects the promise, [main] catches and prints, and the run ends
    normally, again without a request. *)
Lemma parse_failure_is_logged (before : list row) (e : exn) (net : network) :
  (main toUpperCase (ParseFails before e) net).2 = Completed ∧
  exit_status (main toUpperCase (ParseFails before e) net).2 = 0 ∧
  posts (main toUpperCase (ParseFails before e) net).1 = [].
Proof.
  unfold main. simpl.
  pose proof (emit_data_posts before []) as Hp.
  destruct (emit_data before []) as [t r]. simpl in *.
  by rewrite !posts_app, Hp.
Qed.

End Run.

(** ** The theorems at sample inputs *)

(** On ASCII strings [toUpperCase] is [toUpperCase_ascii_only]; the sample
    rows are ASCII, and are run with it. *)
Lemma toUpperCase_ascii_only_ascii s :
  forallb is_ascii s = true →
  toUpperCase_ascii_only s = toUpperCase_ascii_only s.
Proof. done. Qed.

Lemma sequencer_orders_by_rank_witness :
  Forall (λ r, ∃ Level, r !! js "Level" = Some Level ∧
            is_Some (spec_rank (toUpperCase_ascii_only Level)))
    [gitega; nyarugenge; kigali] ∧
  ∃ out, sequencer toUpperCase_ascii_only [gitega; nyarugenge; kigali] = Normal out ∧
    out ≡ₚ [gitega; nyarugenge; kigali] ∧
    ∀ i j a b La Lb ra rb,
      out !! i = Some a → out !! j = Some b →
      a !! js "Level" = Some La → b !! js "Level" = Some Lb →
      spec_rank (toUpperCase_ascii_only La) = Some ra →
      spec_rank (toUpperCase_ascii_only Lb) = Some rb →
      ra < rb → (i < j)%nat.
Proof.
  assert (Forall (λ r, ∃ Level, r !! js "Level" = Some Level ∧
            is_Some (spec_rank (toUpperCase_ascii_only Level)))
            [gitega; nyarugenge; kigali]) as Hrec.
  { each_row ltac:(eexists; split; [reflexivity|compute_true]). }
  split; [exact Hrec|].
  exact (sequencer_orders_by_rank toUpperCase_ascii_only _ Hrec).
Defined.

Lemma unrecognized_levels_sort_first_witness :
  Forall (λ r, is_Some (r !! js "Level")) [kigali; hamlet; nyarugenge] ∧
  ∃ out, sequencer toUpperCase_ascii_only [kigali; hamlet; nyarugenge] = Normal out ∧
    ∀ i j a b La Lb,
      out !! i = Some a → out !! j = Some b →
      a !! js "Level" = Some La →
      toUpperCase_ascii_only La ∉ locationTypesOrder →
      b !! js "Level" = Some Lb →
      toUpperCase_ascii_only Lb ∈ locationTypesOrder →
      (i < j)%nat.
Proof.
  assert (Forall (λ r, is_Some (r !! js "Level"))
            [kigali; hamlet; nyarugenge]) as Hall.
  { each_row ltac:(eexists; reflexivity). }
  split; [exact Hall|].
  destruct (unrecognized_levels_sort_first toUpperCase_ascii_only _ Hall)
    as (_ & out & Hout & _ & Hord).
  exists out. split; [exact Hout|exact Hord].
Defined.

(** C9, as stated, fails when a row has no level at all.  In the batch
    province, blank line, hamlet the comparator returns [undefined] for
    every pair with the blank row: each row compares as 0 with the one
    before it, the whole batch passes for an ascending run, and the sort
    leaves it as it is.  The row of rank -1 stays behind the province. *)
Lemma unrecognized_level_after_province :
  ∃ out i j a b La Lb,
    sequencer toUpperCase_ascii_only [kigali; blank; hamlet] = Normal out ∧
    out !! i = Some a ∧ out !! j = Some b ∧
    a !! js "Level" = Some La ∧
    (toUpperCase_ascii_only La ∉ locationTypesOrder) ∧
    level_index toUpperCase_ascii_only a = Normal (-1) ∧
    b !! js "Level" = Some Lb ∧
    toUpperCase_ascii_only Lb ∈ locationTypesOrder ∧
    ¬ (i < j)%nat.
Proof.
  exists [kigali; blank; hamlet], 2%nat, 0%nat, hamlet, kigali,
    (js "hamlet"), (js "province").
  split; [vm_compute; reflexivity|].
  do 2 (split; [reflexivity|]).
  split; [vm_compute; reflexivity|].
  split; [compute_true|].
  split; [vm_compute; reflexivity|].
  split; [vm_compute; reflexivity|].
  split; [compute_true|lia].
Qed.

Lemma sequencer_stable_witness :
  Forall (λ r, is_Some (r !! js "Level")) [nyarugenge; kigali; gasabo] ∧
  ∃ out, sequencer toUpperCase_ascii_only [nyarugenge; kigali; gasabo] = Normal out ∧
    ∀ k, filter (λ r, level_index toUpperCase_ascii_only r = Normal k) out =
         filter (λ r, level_index toUpperCase_ascii_only r = Normal k)
           [nyarugenge; kigali; gasabo].
Proof.
  assert (Forall (λ r, is_Some (r !! js "Level"))
            [nyarugenge; kigali; gasabo]) as Hall.
  { each_row ltac:(eexists; reflexivity). }
  split; [exact Hall|].
  exact (sequencer_stable toUpperCase_ascii_only _ Hall).
Defined.

(** C10, as stated, fails when rows have no level.  In the batch blank,
    blank, sector, blank, Nyarugenge, province, Gasabo every comparison
    with a blank row gives 0, so the first five rows pass for an ascending
    run.  The binary insertion of the province meets the sector at index 2
    (below it) and the blank row at index 1 (not below), and puts it at
    index 2.  The insertion of Gasabo meets the sector, now at index 3
    (below it), the blank row at index 1 and the province at index 2 (not
    below), and puts it at index 3: in front of Nyarugenge, the other
    district, with which it was never compared. *)
Lemma equal_rank_rows_swapped :
  sequencer toUpperCase_ascii_only
    [blank; blank; gitega; blank; nyarugenge; kigali; gasabo] =
    Normal [blank; blank; kigali; gasabo; gitega; blank; nyarugenge] ∧
  level_index toUpperCase_ascii_only nyarugenge = Normal 1 ∧
  level_index toUpperCase_ascii_only gasabo = Normal 1 ∧
  (comparefn toUpperCase_ascii_only nyarugenge gasabo).2 = Normal (Num 0) ∧
  filter (λ r, level_index toUpperCase_ascii_only r = Normal 1)
    [blank; blank; gitega; blank; nyarugenge; kigali; gasabo] =
    [nyarugenge; gasabo] ∧
  filter (λ r, level_index toUpperCase_ascii_only r = Normal 1)
    [blank; blank; kigali; gasabo; gitega; blank; nyarugenge] =
    [gasabo; nyarugenge].
Proof. repeat split; vm_compute; reflexivity. Qed.

Lemma sequencer_never_raises_witness :
  ∃ out, sequencer toUpperCase_ascii_only [kigali; hamlet; nyarugenge] = Normal out ∧
    out = filter (λ r, level_index toUpperCase_ascii_only r = Normal (-1))
            [kigali; hamlet; nyarugenge] ++
          filter (λ r, level_index toUpperCase_ascii_only r ≠ Normal (-1)) out.
Proof.
  destruct (sequencer_never_raises toUpperCase_ascii_only
              [kigali; hamlet; nyarugenge]) as (out & Hout & _ & _ & _ & Hpos).
  exists out. split; [exact Hout|]. apply Hpos.
  each_row ltac:(eexists; reflexivity).
Defined.

(** C2.  The loop does not isolate a record it cannot build a request
    for.  The batch province, blank line, hamlet is in sequencer order.  The
    call for the province is rejected with status 500 and caught; the blank
    row then throws a TypeError at line 87, outside the [try]: the loop ends
    there, the hamlet is never attempted, and [populateLocations] throws.
    The comparator guards the same [Level.toUpperCase()] with a [try]; the
    loop does not. *)
Lemma publish_stops_at_blank_row :
  sequencer toUpperCase_ascii_only [kigali; blank; hamlet] =
    Normal [kigali; blank; hamlet] ∧
  (∃ url body,
     build_request toUpperCase_ascii_only kigali = Normal (url, body) ∧
     failed (always_rejects 0%nat url body) = true ∧
     posts (publish toUpperCase_ascii_only always_rejects 0
              [kigali; blank; hamlet]).1 = [(url, body)]) ∧
  (publish toUpperCase_ascii_only always_rejects 0
     [kigali; blank; hamlet]).2 = Throw TypeError ∧
  (populateLocations toUpperCase_ascii_only always_rejects
     [kigali; blank; hamlet]).2 = Throw TypeError.
Proof.
  split; [vm_compute; reflexivity|].
  split; [|split; vm_compute; reflexivity].
  do 2 eexists. split; [reflexivity|]. split; vm_compute; reflexivity.
Qed.

(** Nor does the [catch] hold every reply.  The second of three calls is
    answered with status 400 and the JSON body [{"toString": 1}]; the line
    of line 109 cannot turn that body into a string, the TypeError leaves
    the [catch], and the third row is never attempted. *)
Lemma publish_stops_at_unprintable_reply :
  ToString (JObject [(js "toString", JNumber (js "1"))]) = Throw TypeError ∧
  Forall (λ location,
            ∃ req, build_request toUpperCase_ascii_only location = Normal req)
    [kigali; nyarugenge; gitega] ∧
  length (posts (publish toUpperCase_ascii_only second_unprintable 0
                   [kigali; nyarugenge; gitega]).1) = 2%nat ∧
  sleeps (publish toUpperCase_ascii_only second_unprintable 0
            [kigali; nyarugenge; gitega]).1 = [100%N] ∧
  (publish toUpperCase_ascii_only second_unprintable 0
     [kigali; nyarugenge; gitega]).2 = Throw TypeError ∧
  (main toUpperCase_ascii_only (Ends [kigali; nyarugenge; gitega])
     second_unprintable).2 = Completed.
Proof.
  split; [reflexivity|].
  split; [each_row ltac:(eexists; reflexivity)|].
  repeat split; vm_compute; reflexivity.
Qed.

Lemma sequencer_idempotent_witness :
  short [blank; gitega; nyarugenge; blank; kigali] ∧
  ∃ out, sequencer toUpperCase_ascii_only
           [blank; gitega; nyarugenge; blank; kigali] = Normal out ∧
         out ≡ₚ [blank; gitega; nyarugenge; blank; kigali] ∧
         sequencer toUpperCase_ascii_only out = Normal out.
Proof.
  assert (short [blank; gitega; nyarugenge; blank; kigali]) as Hshort.
  { unfold short. simpl. lia. }
  split; [exact Hshort|].
  exact (sequencer_idempotent toUpperCase_ascii_only _ (or_introl Hshort)).
Defined.

Lemma payload_shape_witness :
  posts (populateLocations toUpperCase_ascii_only second_fails [kigali]).1 =
    [(js "http://localhost:8081/api/hec/location/saveLocation",
      {| locationCode := Some (js "RW01");
         locationType := js "PROVINCE";
         locationName := Some (js "Kigali") |})].
Proof.
  apply (payload_shape toUpperCase_ascii_only toUpperCase_ascii_only_ascii
           second_fails []).
Defined.


(** ** Further properties of the loader and of [main] *)

Lemma emit_data_eq rows results :
  emit_data rows results =
  ((λ data : row, Console (LogRow (trim <$> data))) <$> rows,
   results ++ ((λ data : row, trim <$> data) <$> rows)).
Proof.
  revert results. induction rows as [|data rows IH]; intros results; simpl.
  { by rewrite app_nil_r. }
  rewrite IH. by rewrite <-(assoc_L (++)).
Qed.

Lemma readCsvFile_Ends rows :
  readCsvFile (Ends rows) =
    (((λ data : row, Console (LogRow (trim <$> data))) <$> rows) ++
       [Console (LogRead (length rows))],
     Resolved ((λ data : row, trim <$> data) <$> rows)).
Proof.
  unfold readCsvFile. rewrite emit_data_eq. simpl. by rewrite length_fmap.
Qed.

(** X1.  Load count.  When the parser reaches the end, [readCsvFile]
    resolves with one record per parsed row, in file order, each the row
    with its cells trimmed; the console shows every record as it is pushed
    and then the number of records, which is the number of rows. *)
Theorem loader_keeps_every_row (rows : list row) :
  readCsvFile (Ends rows) =
    (((λ data : row, Console (LogRow (trim <$> data))) <$> rows) ++
       [Console (LogRead (length rows))],
     Resolved ((λ data : row, trim <$> data) <$> rows)) ∧
  ∃ results, (readCsvFile (Ends rows)).2 = Resolved results ∧
    length results = length rows ∧
    Forall2 (λ data loaded : row, ∀ key, loaded !! key = trim <$> data !! key)
      rows results.
Proof.
  pose proof (readCsvFile_Ends rows) as Heq.
  split; [done|]. rewrite Heq. eexists. split; [done|].
  split; [by rewrite length_fmap|].
  apply Forall2_fmap_r, Forall_Forall2_diag, Forall_forall.
  intros data _ key. apply lookup_fmap.
Qed.

Lemma posts_console line t : posts (Console line :: t) = posts t.
Proof. done. Qed.

Section Run_more.
Variable toUpperCase : jsstring → jsstring.

Lemma main_ParseFails before e net :
  main toUpperCase (ParseFails before e) net =
    (((λ data : row, Console (LogRow (trim <$> data))) <$> before) ++
       [Console (ErrReading e); Console (ErrFailed e)],
     Completed).
Proof.
  unfold main, readCsvFile. rewrite emit_data_eq. simpl.
  by rewrite <-(assoc_L (++)).
Qed.

Lemma main_ReadFails before e net :
  main toUpperCase (ReadFails before e) net =
    ((λ data : row, Console (LogRow (trim <$> data))) <$> before, Died e).
Proof.
  unfold main, readCsvFile. rewrite emit_data_eq. simpl.
  by rewrite app_nil_r.
Qed.

(** X2.  A failure of the parser.  When the parser emits ['error'], the
    listener of line 48 prints it and rejects; [main] catches the
    rejection and prints it too.  The rows parsed so far were shown on the
    console but are handed to nobody, no request is sent, and the process
    ends with exit status 0. *)
Theorem parser_failure_ends_quietly (before : list row) (e : exn)
    (net : network) :
  main toUpperCase (ParseFails before e) net =
    (((λ data : row, Console (LogRow (trim <$> data))) <$> before) ++
       [Console (ErrReading e); Console (ErrFailed e)],
     Completed) ∧
  exit_status (main toUpperCase (ParseFails before e) net).2 = 0 ∧
  posts (main toUpperCase (ParseFails before e) net).1 = [].
Proof.
  pose proof (main_ParseFails before e net) as Heq.
  rewrite Heq. do 2 (split; [done|]). simpl.
  rewrite posts_app. rewrite app_nil_r. apply posts_rows.
  apply Forall_fmap, Forall_forall. intros data _. by eexists.
Qed.

(** The trace of [populateLocations] holds the line of line 80: the sort
    never throws. *)
Lemma populateLocations_starting net batch :
  Console LogStarting ∈ (populateLocations toUpperCase net batch).1.
Proof.
  rewrite populateLocations_eq. cbv zeta.
  destruct (publish toUpperCase net 0 _) as [t [[]|e]];
    cbn [fst]; apply elem_of_app; right; left.
Qed.

Lemma main_Ends rows net :
  main toUpperCase (Ends rows) net =
  let locations := (λ data : row, trim <$> data) <$> rows in
  let t := ((λ data : row, Console (LogRow (trim <$> data))) <$> rows) ++
           [Console (LogRead (length rows))] ++
           [Console (LogLocations locations)] in
  if bool_decide (0 < length rows)%nat then
    match populateLocations toUpperCase net locations with
    | (t', Normal _) => (t ++ t', Completed)
    | (t', Throw error) => (t ++ t' ++ [Console (ErrFailed error)], Completed)
    end
  else (t ++ [Console WarnNoData], Completed).
Proof.
  unfold main. rewrite readCsvFile_Ends.
  rewrite length_fmap. cbv zeta. rewrite <-!(assoc_L (++)). done.
Qed.

(** X3.  The gate of line 133.  [populateLocations] is entered, and its
    opening line printed, exactly when the file was read to the end and
    gave at least one row.  A file with a header only prints the count 0,
    the empty batch and the warning of line 136, and sends nothing. *)
Theorem population_starts_iff_rows (file : load) (net : network) :
  (Console LogStarting ∈ (main toUpperCase file net).1 ↔
   ∃ data rows, file = Ends (data :: rows)) ∧
  main toUpperCase (Ends []) net =
    ([Console (LogRead 0); Console (LogLocations []); Console WarnNoData],
     Completed).
Proof.
  split; [|done]. split.
  - destruct file as [before e|before e|[|data rows]].
    + rewrite main_ReadFails. simpl. intros Hin.
      apply list_elem_of_fmap in Hin as (? & ? & ?). done.
    + rewrite main_ParseFails.
      simpl. intros [Hin|Hin]%elem_of_app.
      * apply list_elem_of_fmap in Hin as (? & ? & ?). done.
      * repeat (apply elem_of_cons in Hin as [Hin|Hin]; [done|]).
        by apply elem_of_nil in Hin.
    + simpl. intros Hin.
      repeat (apply elem_of_cons in Hin as [Hin|Hin]; [done|]).
      by apply elem_of_nil in Hin.
    + eauto.
  - intros (data & rows & ->). rewrite main_Ends. cbv zeta.
    rewrite bool_decide_true by (simpl; lia).
    pose proof (populateLocations_starting net
                  ((λ data : row, trim <$> data) <$> data :: rows)) as Hin.
    destruct (populateLocations toUpperCase net _) as [t' [[]|error]];
      cbn [fst] in *; apply elem_of_app; right; [done|].
    apply elem_of_app. by left.
Qed.

(** X4.  Exit status.  The process ends with a non-zero status in one
    case only, a failure of the read stream.  A failure of the parser, a
    row the loop cannot build a request for, and any reply of the server
    all leave [main] through its end: exit status 0. *)
Theorem exit_status_nonzero_iff_read_fails (file : load) (net : network) :
  match file with
  | ReadFails _ e => (main toUpperCase file net).2 = Died e
  | _ => (main toUpperCase file net).2 = Completed
  end ∧
  (exit_status (main toUpperCase file net).2 ≠ 0 ↔
   ∃ before e, file = ReadFails before e).
Proof.
  assert (match file with
          | ReadFails _ e => (main toUpperCase file net).2 = Died e
          | _ => (main toUpperCase file net).2 = Completed
          end) as Hend.
  { destruct file as [before e|before e|rows].
    - by rewrite main_ReadFails.
    - by rewrite main_ParseFails.
    - rewrite main_Ends. cbv zeta. case_bool_decide; [|done].
      by destruct (populateLocations toUpperCase net _) as [t' [[]|error]]. }
  split; [done|].
  destruct file as [before e|before e|rows]; rewrite Hend; simpl.
  - split; [eauto|done].
  - split; [done|]. by intros (? & ? & ?).
  - split; [done|]. by intros (? & ? & ?).
Qed.

(** X5.  The requests of a run.  When the file is read to the end, the
    requests of the whole run are those of the loop over the sorted
    trimmed rows, and nothing else in the run sends a request. *)
Theorem run_posts_sorted_trimmed_rows (rows : list row) (net : network) :
  ∃ sorted,
    sequencer toUpperCase ((λ data : row, trim <$> data) <$> rows) =
      Normal sorted ∧
    sorted ≡ₚ (λ data : row, trim <$> data) <$> rows ∧
    posts (main toUpperCase (Ends rows) net).1 =
      posts (publish toUpperCase net 0 sorted).1.
Proof.
  exists (sort_with (order toUpperCase) ((λ data : row, trim <$> data) <$> rows)).
  split; [apply sequencer_sort_with|]. split; [apply sort_with_perm|].
  assert (posts (((λ data : row, Console (LogRow (trim <$> data))) <$> rows) ++
           [Console (LogRead (length rows))] ++
           [Console (LogLocations ((λ data : row, trim <$> data) <$> rows))])
          = []) as Hquiet.
  { rewrite posts_app. rewrite app_nil_r. apply posts_rows.
    apply Forall_fmap, Forall_forall. intros data _. by eexists. }
  rewrite main_Ends. cbv zeta. case_bool_decide as Hlen.
  - rewrite <-populateLocations_posts.
    destruct (populateLocations toUpperCase net _) as [t [[]|error]];
      cbn [fst]; rewrite posts_app, Hquiet, app_nil_l; [done|].
    rewrite posts_app. apply app_nil_r.
  - destruct rows; [|simpl in Hlen; lia]. done.
Qed.

End Run_more.

(** ** Further properties of the publisher *)

Lemma trimStart_whitespace s :
  forallb is_whitespace s = true → trimStart s = [].
Proof.
  induction s as [|c s IH]; [done|].
  intros [Hc Hs]%andb_prop. simpl. rewrite Hc. by apply IH.
Qed.

Lemma trim_whitespace s : forallb is_whitespace s = true → trim s = [].
Proof. intros Hs. unfold trim. by rewrite trimStart_whitespace. Qed.

Section Publisher_more.
Variable toUpperCase : jsstring → jsstring.





Lemma publish_app_throw net i before bad after e :
  (∀ j url body, breaks (net j url body) = false) →
  Forall (λ location, ∃ req, build_request toUpperCase location = Normal req)
    before →
  build_request toUpperCase bad = Throw e →
  publish toUpperCase net i (before ++ bad :: after) =
  ((publish toUpperCase net i before).1, Throw e).
Proof.
  intros Hnet Hall Hbad. revert i.
  induction Hall as [|location rest [[url body] Hreq] Hall IH]; intros i.
  { rewrite app_nil_l, publish_cons. by rewrite Hbad. }
  rewrite <-app_comm_cons, !publish_cons, Hreq, attempt_normal, IH by done.
  done.
Qed.

(** X7.  The first row without a request ends the loop.  If no reply
    breaks, the rows in front of a row can all be turned into requests and
    that row cannot, because its Level is missing or its ParentCode cannot
    be encoded, the loop sends the requests of the rows in front, in order,
    and then throws the error of that row: no row behind it is attempted,
    and [populateLocations] does not print its closing line. *)
Theorem publish_stops_at_first_bad_row (net : network)
    (before : list row) (bad : row) (after : list row) (e : exn) :
  (∀ j url body, breaks (net j url body) = false) →
  Forall (λ location, ∃ req, build_request toUpperCase location = Normal req)
    before →
  build_request toUpperCase bad = Throw e →
  (publish toUpperCase net 0 (before ++ bad :: after)).2 = Throw e ∧
  Forall2 (λ location req, build_request toUpperCase location = Normal req)
    before (posts (publish toUpperCase net 0 (before ++ bad :: after)).1) ∧
  (publish toUpperCase net 0 (before ++ bad :: after)).1 =
    (publish toUpperCase net 0 before).1.
Proof.
  intros Hnet Hall Hbad.
  rewrite (publish_app_throw net 0 before bad after e) by done.
  split; [done|]. split; [|done]. cbn [fst].
  destruct (publish_complete toUpperCase net 0%nat before Hall Hnet) as [_ Hlen].
  pose proof (publish_posts toUpperCase net 0%nat before) as Hp.
  by rewrite Hlen, firstn_all in Hp.
Qed.

(** X8.  No parent, no query.  Every request sent for a row whose
    ParentCode is missing or empty goes to [.../saveLocation] itself:
    nothing is appended to the URL. *)
Theorem no_parent_no_query (net : network) (batch : list row) :
  Forall2 (λ location req,
             location !! js "ParentCode" = None ∨
             location !! js "ParentCode" = Some [] →
             req.1 = API_BASE_URL ++ js "/saveLocation")
    (take (length (posts (publish toUpperCase net 0 batch).1)) batch)
    (posts (publish toUpperCase net 0 batch).1).
Proof.
  eapply Forall2_impl; [apply publish_posts|].
  intros location [url body] Hreq Hparent.
  destruct (build_request_inv toUpperCase _ _ _ Hreq) as (Level & _ & _ & Hurl).
  by destruct Hparent as [Hp|Hp]; rewrite Hp in Hurl.
Qed.





Lemma build_request_rank location url body :
  build_request toUpperCase location = Normal (url, body) →
  rank_key toUpperCase location =
  indexOf locationTypesOrder (locationType body).
Proof.
  intros Hreq.
  destruct (build_request_inv toUpperCase _ _ _ Hreq) as (Level & HL & -> & _).
  apply rank_key_ranked. by apply level_index_Level.
Qed.

(** X10.  Requests in rank order.  For a batch in which every row has a
    level string, the requests of [populateLocations] go out by rank of
    their [locationType] in the table of line 63: a request sent earlier
    never has a higher rank than one sent later, so every PROVINCE request
    precedes every DISTRICT request, and so on down to VILLAGE. *)
Theorem requests_in_rank_order (net : network) (batch : list row) :
  Forall (λ r, is_Some (r !! js "Level")) batch →
  ∀ i j reqi reqj,
    posts (populateLocations toUpperCase net batch).1 !! i = Some reqi →
    posts (populateLocations toUpperCase net batch).1 !! j = Some reqj →
    (i < j)%nat →
    indexOf locationTypesOrder (locationType reqi.2) ≤
    indexOf locationTypesOrder (locationType reqj.2).
Proof.
  intros Hall i j [urli bodyi] [urlj bodyj]. rewrite populateLocations_posts.
  intros Hi Hj Hij.
  pose proof (publish_posts toUpperCase net 0
                (sort_with (order toUpperCase) batch)) as Hsent.
  destruct (Forall2_lookup_r _ _ _ _ _ Hsent Hi) as (rowi & Hrowi & Hreqi).
  destruct (Forall2_lookup_r _ _ _ _ _ Hsent Hj) as (rowj & Hrowj & Hreqj).
  apply lookup_take_Some in Hrowi as [Hrowi _].
  apply lookup_take_Some in Hrowj as [Hrowj _].
  cbn [snd].
  rewrite <-(build_request_rank _ _ _ Hreqi), <-(build_request_rank _ _ _ Hreqj).
  eapply (StronglySorted_lookup (rank_key toUpperCase));
    [by apply sequencer_sorted|done..].
Qed.

(** X11.  Cells are trimmed before they are used.  A row whose ParentCode
    cell holds white space only is posted without a parent parameter, and
    the Level, the LocationCode and the LocationName it is posted with are
    the cells without their surrounding white space. *)
Theorem blank_parent_is_no_parent (data : row) (Level ParentCode : jsstring) :
  data !! js "Level" = Some Level →
  data !! js "ParentCode" = Some ParentCode →
  forallb is_whitespace ParentCode = true →
  build_request toUpperCase (trim <$> data) =
    Normal (API_BASE_URL ++ js "/saveLocation",
            {| locationCode := trim <$> data !! js "LocationCode";
               locationType := toUpperCase (trim Level);
               locationName := trim <$> data !! js "LocationName" |}).
Proof.
  intros HL HP Hws. unfold build_request.
  rewrite !lookup_fmap, HL, HP. cbn [fmap option_fmap option_map].
  by rewrite (trim_whitespace ParentCode Hws).
Qed.

End Publisher_more.

(** ** Further properties of the sequencer *)

Lemma indexOf_from_lookup xs x i :
  x ∈ xs →
  xs !! Z.to_nat (indexOf_from xs x i - i) = Some x ∧
  i ≤ indexOf_from xs x i < i + Z.of_nat (length xs).
Proof.
  revert i. induction xs as [|y ys IH]; intros i Hx.
  { by apply elem_of_nil in Hx. }
  simpl. case_decide as Hy.
  { subst. rewrite Z.sub_diag. split; [done|lia]. }
  apply elem_of_cons in Hx as [->|Hx]; [done|].
  destruct (IH (i + 1) Hx) as [Hl Hr]. split; [|lia].
  replace (indexOf_from ys x (i + 1) - i)
    with (Z.succ (indexOf_from ys x (i + 1) - (i + 1))) by lia.
  rewrite Z2Nat.inj_succ by lia. done.
Qed.

Lemma Sorted_all_related {A} (R : relation A) (l : list A) :
  (∀ x y, x ∈ l → y ∈ l → R x y) → Sorted R l.
Proof.
  induction l as [|x l IH]; intros HR; [constructor|].
  constructor.
  - apply IH. intros; apply HR; by right.
  - destruct l; constructor. apply HR; [left|right; left].
Qed.

Section Sequencer_more.
Variable toUpperCase : jsstring → jsstring.

(** X12.  The rank of a row.  For a row with a level string the rank is
    the position of the upper-cased level in the table of line 63, a number
    from 0 to 4, or -1 when the upper-cased level is none of the five
    tags. *)
Theorem rank_is_table_position (r : row) (Level : jsstring) :
  r !! js "Level" = Some Level →
  ∃ k, level_index toUpperCase r = Normal k ∧
    ((k = -1 ∧ toUpperCase Level ∉ locationTypesOrder) ∨
     (0 ≤ k ≤ 4 ∧
      locationTypesOrder !! Z.to_nat k = Some (toUpperCase Level))).
Proof.
  intros HL. rewrite (level_index_Level toUpperCase r Level HL).
  eexists; split; [done|].
  destruct (decide (toUpperCase Level ∈ locationTypesOrder)) as [Hin|Hnot].
  - right. destruct (indexOf_from_lookup _ _ 0 Hin) as [Hl Hr].
    rewrite Z.sub_0_r in Hl. unfold indexOf.
    change (Z.of_nat (length locationTypesOrder)) with 5 in Hr.
    split; [lia|done].
  - left. by rewrite indexOf_not_found.
Qed.

Lemma order_bounds a b : -5 ≤ order toUpperCase a b ≤ 5.
Proof.
  unfold order, compare_value.
  destruct (level_index toUpperCase a) as [ka|] eqn:Ha;
    destruct (level_index toUpperCase b) as [kb|] eqn:Hb; simpl; try lia.
  assert (∀ r k, level_index toUpperCase r = Normal k → -1 ≤ k ≤ 4) as Hrange.
  { intros r k. unfold level_index.
    destruct (r !! js "Level") as [l|] eqn:Hl; [|done]. intros [= <-].
    unfold indexOf.
    destruct (indexOf_from_range locationTypesOrder (toUpperCase l) 0)
      as [->|Hr]; [lia|].
    change (Z.of_nat (length locationTypesOrder)) with 5 in Hr. lia. }
  pose proof (Hrange a ka Ha). pose proof (Hrange b kb Hb). lia.
Qed.

(** X13.  The comparator.  For any two rows the comparator returns
    without throwing; the number [sort] reads from it lies between -5 and
    5, and swapping the arguments negates it.  A row without a level
    compares as 0 with every row. *)
Theorem comparator_antisymmetric (a b : row) :
  ∃ v w, (comparefn toUpperCase a b).2 = Normal v ∧
         (comparefn toUpperCase b a).2 = Normal w ∧
         cmp_number v = - cmp_number w ∧
         -5 ≤ cmp_number v ≤ 5 ∧
         (a !! js "Level" = None ∨ b !! js "Level" = None → cmp_number v = 0).
Proof.
  exists (compare_value toUpperCase a b), (compare_value toUpperCase b a).
  do 2 (split; [apply comparefn_value|]).
  split; [|split; [apply order_bounds|]].
  - unfold compare_value.
    destruct (level_index toUpperCase a), (level_index toUpperCase b);
      simpl; lia.
  - unfold compare_value, level_index.
    intros [Hn|Hn]; rewrite Hn; [done|].
    by destruct (a !! js "Level").
Qed.

(** X14.  The output of the sequencer is the stable sort.  For a batch in
    which every row has a level string, a list is the output of the
    sequencer exactly when it is a permutation of the batch, sorted by
    rank, in which the rows of each rank keep their input order.  No other
    order of the batch has these three properties, whatever the sorting
    algorithm. *)
Theorem sequencer_is_the_stable_sort (batch out : list row) :
  Forall (λ r, is_Some (r !! js "Level")) batch →
  sequencer toUpperCase batch = Normal out ↔
  out ≡ₚ batch ∧
  StronglySorted (λ a b, rank_key toUpperCase a ≤ rank_key toUpperCase b) out ∧
  ∀ k, filter (λ r, level_index toUpperCase r = Normal k) out =
       filter (λ r, level_index toUpperCase r = Normal k) batch.
Proof.
  intros Hall. split.
  - rewrite sequencer_sort_with. intros [= <-].
    split; [apply sort_with_perm|]. split; [by apply sequencer_sorted|].
    intros k. by apply sequencer_classes.
  - intros (Hperm & Hsorted & Hclasses).
    apply sequencer_determined; [done..|]. intros k.
    assert (Forall (λ r, is_Some (r !! js "Level")) out) as Hall'
      by by rewrite Hperm.
    rewrite Forall_forall in Hall, Hall'.
    rewrite <-(filter_ext_elem_of (λ r, level_index toUpperCase r = Normal k)
                 (λ r, rank_key toUpperCase r = k) out)
      by (intros r Hr; by apply rank_key_level_index, Hall').
    rewrite <-(filter_ext_elem_of (λ r, level_index toUpperCase r = Normal k)
                 (λ r, rank_key toUpperCase r = k) batch)
      by (intros r Hr; by apply rank_key_level_index, Hall).
    apply Hclasses.
Qed.

Lemma sequencer_fixed batch :
  Sorted (λ p c, 0 ≤ order toUpperCase c p) batch →
  sequencer toUpperCase batch = Normal batch.
Proof.
  intros Hs. rewrite sequencer_sort_with. f_equal. by apply sort_with_fixed.
Qed.

(** X15.  A batch already in order.  If every row has a level string and
    no row has a lower rank than the row before it, the sequencer returns
    the batch as it is: a file written in hierarchy order is posted in file
    order. *)
Theorem ordered_batch_unchanged (batch : list row) :
  Forall (λ r, is_Some (r !! js "Level")) batch →
  Sorted (λ a b, rank_key toUpperCase a ≤ rank_key toUpperCase b) batch →
  sequencer toUpperCase batch = Normal batch.
Proof.
  intros Hall Hs. apply sequencer_fixed.
  eapply Sorted_impl_elem_of; [|done].
  intros p c Hp Hc Hle. cbv beta in *.
  rewrite (order_key toUpperCase batch Hall c p) by done. lia.
Qed.

(** Without a level in any row the comparator is the constant 0 and the
    batch stays as it is. *)
Lemma sequencer_without_levels batch :
  Forall (λ r, r !! js "Level" = None) batch →
  sequencer toUpperCase batch = Normal batch.
Proof.
  rewrite Forall_forall. intros Hnone. apply sequencer_fixed.
  apply Sorted_all_related. intros p c Hp Hc.
  unfold order, compare_value, level_index. by rewrite (Hnone c Hc).
Qed.

(** X16.  A file without a Level column.  If no row of the file has a
    [Level] cell, for instance because the header spells the column
    otherwise, the sequencer leaves the rows in file order, the loop throws
    a TypeError at the first row, and [main] catches it: the run prints the
    failure, sends no request and ends with exit status 0. *)
Theorem no_level_column_sends_nothing (data : row) (rows : list row)
    (net : network) :
  Forall (λ r, r !! js "Level" = None) (data :: rows) →
  sequencer toUpperCase ((λ r : row, trim <$> r) <$> data :: rows) =
    Normal ((λ r : row, trim <$> r) <$> data :: rows) ∧
  (main toUpperCase (Ends (data :: rows)) net).2 = Completed ∧
  posts (main toUpperCase (Ends (data :: rows)) net).1 = [] ∧
  last (main toUpperCase (Ends (data :: rows)) net).1 =
    Some (Console (ErrFailed TypeError)).
Proof.
  intros Hnone.
  assert (Forall (λ r, r !! js "Level" = None)
            ((λ r : row, trim <$> r) <$> data :: rows)) as Hnone'.
  { apply Forall_fmap. eapply Forall_impl; [done|].
    intros r Hr. simpl. by rewrite lookup_fmap, Hr. }
  pose proof (sequencer_without_levels _ Hnone') as Hseq.
  split; [done|].
  assert ((trim <$> data) !! js "Level" = None) as Hd.
  { apply Forall_cons in Hnone as [Hd _]. by rewrite lookup_fmap, Hd. }
  assert (sort_with (order toUpperCase)
            ((λ r : row, trim <$> r) <$> data :: rows) =
          (λ r : row, trim <$> r) <$> data :: rows) as Hsort.
  { rewrite sequencer_sort_with in Hseq. by injection Hseq. }
  rewrite main_Ends. cbv zeta. rewrite bool_decide_true by (simpl; lia).
  rewrite populateLocations_eq. cbv zeta. rewrite Hsort.
  pose proof (sort_consoles toUpperCase
                ((λ r : row, trim <$> r) <$> data :: rows)) as Hquiet.
  rewrite fmap_cons, publish_cons in *. unfold build_request.
  rewrite Hd. cbn [fst snd].
  split; [done|]. split.
  - rewrite !posts_app, (posts_consoles _ Hquiet). simpl.
    rewrite !app_nil_r. apply posts_rows.
    apply Forall_fmap, Forall_forall. intros r _. by eexists.
  - by rewrite !(assoc_L (++)), last_snoc.
Qed.

End Sequencer_more.

(** ** Further properties of trim *)

Lemma trimStart_fixed s :
  from_option is_whitespace false (head s) = false → trimStart s = s.
Proof. destruct s as [|c s]; [done|]. simpl. by intros ->. Qed.

Lemma trimEnd_fixed s :
  from_option is_whitespace false (last s) = false → trimEnd s = s.
Proof.
  intros Hlast. unfold trimEnd.
  rewrite trimStart_fixed; [apply reverse_involutive|].
  by rewrite head_reverse.
Qed.

Lemma trim_fixed s :
  from_option is_whitespace false (head s) = false →
  from_option is_whitespace false (last s) = false →
  trim s = s.
Proof.
  intros Hhead Hlast. unfold trim.
  rewrite trimStart_fixed by done. by apply trimEnd_fixed.
Qed.

(** X17.  Trimming is a normal form.  A cell that neither starts nor ends
    with white space is left as it is, trimming twice is trimming once, and
    a record the loader has produced passes through the ['data'] listener
    unchanged.  A cell of white space only becomes the empty string. *)
Theorem trim_is_idempotent (data : row) (results : list row) :
  (∀ s, trim (trim s) = trim s) ∧
  (∀ s, trim s = s ↔
        from_option is_whitespace false (head s) = false ∧
        from_option is_whitespace false (last s) = false) ∧
  (∀ s, forallb is_whitespace s = true → trim s = []) ∧
  (on_data (trim <$> data) results).2 = (on_data data results).2.
Proof.
  assert (∀ s, trim (trim s) = trim s) as Hidem.
  { intros s. destruct (trim_spec s) as (? & ? & _ & _ & _ & Hh & Hl).
    by apply trim_fixed. }
  split; [done|]. split; [|split; [apply trim_whitespace|]].
  - intros s. split; [|intros [??]; by apply trim_fixed].
    intros Heq. destruct (trim_spec s) as (? & ? & _ & _ & _ & Hh & Hl).
    by rewrite Heq in Hh, Hl.
  - unfold on_data. cbn [snd]. do 2 f_equal.
    rewrite <-map_fmap_compose. apply map_fmap_ext. intros key s _. apply Hidem.
Qed.

Lemma query_length : length (js "?parentCode=") = 12%nat.
Proof. reflexivity. Qed.

Section Request_more.
Variable toUpperCase : jsstring → jsstring.

Lemma Normal_pair_inv {A B} (a c : A) (b d : B) :
  Normal (a, b) = Normal (c, d) → a = c ∧ b = d.
Proof. by intros [= -> ->]. Qed.

Lemma build_request_parent location :
  build_request toUpperCase location =
  match location !! js "Level" with
  | None => Throw TypeError
  | Some Level =>
      let body := {| locationCode := location !! js "LocationCode";
                     locationType := toUpperCase Level;
                     locationName := location !! js "LocationName" |} in
      match parent_of location with
      | Some ParentCode =>
          q ←! encodeURIComponent ParentCode;
          Normal (API_BASE_URL ++ js "/saveLocation" ++ js "?parentCode=" ++ q,
                  body)
      | None => Normal (API_BASE_URL ++ js "/saveLocation", body)
      end
  end.
Proof.
  unfold build_request, parent_of.
  destruct (location !! js "Level") as [Level|]; [|done]. cbv zeta.
  destruct (location !! js "ParentCode") as [ParentCode|]; [|done].
  case_bool_decide; [|done].
  destruct (encodeURIComponent ParentCode); [|done].
  unfold cbind. by rewrite <-!(assoc_L (++)).
Qed.

Lemma parent_of_Some location p :
  parent_of location = Some p →
  location !! js "ParentCode" = Some p ∧ p ≠ [].
Proof.
  unfold parent_of. destruct (location !! js "ParentCode") as [p'|]; [|done].
  case_bool_decide as Hlen; [|done]. intros [= ->]. split; [done|].
  intros ->. simpl in Hlen. lia.
Qed.

(** X18.  The query string is safe.  When a request is built for a row
    with a ParentCode, the URL is the endpoint, [?parentCode=] and the
    encoded ParentCode, and the encoded part consists of letters, digits,
    the marks [-_.!~*'()] and [%] only: whatever the cell holds, it cannot
    add a second parameter, a fragment or a path segment to the URL. *)
Theorem query_is_url_safe (location : row) (url : jsstring) (body : payload) :
  from_option code_units true (location !! js "ParentCode") = true →
  build_request toUpperCase location = Normal (url, body) →
  match parent_of location with
  | None => url = API_BASE_URL ++ js "/saveLocation"
  | Some ParentCode =>
      ∃ q, encodeURIComponent ParentCode = Normal q ∧
        url = API_BASE_URL ++ js "/saveLocation" ++ js "?parentCode=" ++ q ∧
        Forall (λ c, unescaped c = true ∨ c = 0x25%N) q ∧
        Forall (λ c, c ∉ js "&=?#/+ :;@,$") q
  end.
Proof.
  intros Hunits. rewrite build_request_parent.
  destruct (location !! js "Level") as [Level|]; [|done]. cbv zeta.
  destruct (parent_of location) as [p|] eqn:Hp;
    [|by intros [<- _]%Normal_pair_inv].
  apply parent_of_Some in Hp as [Hp _]. rewrite Hp in Hunits.
  destruct (encodeURIComponent p) as [q|] eqn:Hq; [|done].
  unfold cbind. intros [<- _]%Normal_pair_inv. exists q. do 2 (split; [done|]).
  pose proof (encodeURIComponent_alphabet p q Hunits Hq) as Hsafe.
  split; [done|]. eapply Forall_impl; [exact Hsafe|].
  intros c Hc Hin. cbv beta in Hc.
  assert (unescaped c = false ∧ c ≠ 0x25%N) as [Hu Hne].
  { revert Hin. change (js "&=?#/+ :;@,$") with
      [0x26; 0x3D; 0x3F; 0x23; 0x2F; 0x2B; 0x20; 0x3A; 0x3B; 0x40; 0x2C; 0x24]%N.
    rewrite !elem_of_cons, elem_of_nil.
    intros H. by repeat (destruct H as [->|H]; [done|]). }
  destruct Hc as [Hc|Hc]; congruence.
Qed.

Lemma build_request_torn : build_request toUpperCase torn = Throw URIError.
Proof.
  unfold build_request.
  replace (torn !! js "Level") with (Some (js "cell"))
    by (vm_compute; reflexivity).
  replace (torn !! js "ParentCode") with (Some (js "RW01" ++ [0xD83D]%N))
    by (vm_compute; reflexivity).
  reflexivity.
Qed.

(** X19.  The two ways a request cannot be built.  Building the request of
    a row throws in two cases only: a TypeError, exactly when the row has no
    Level, and a URIError, which needs a surrogate code unit in its
    ParentCode.  A row with a Level and a ParentCode free of surrogates, or
    no ParentCode, always gives a request; a ParentCode that ends in a
    leading surrogate gives the URIError.  Both errors arise outside the
    [try] of the loop. *)
Theorem request_fails_in_two_ways (location : row) :
  (∀ e, build_request toUpperCase location = Throw e →
        (e = TypeError ∧ location !! js "Level" = None) ∨
        (e = URIError ∧ is_Some (location !! js "Level") ∧
           ∃ ParentCode, location !! js "ParentCode" = Some ParentCode ∧
             Exists (λ c, is_surrogate c = true) ParentCode)) ∧
  (location !! js "Level" = None →
     build_request toUpperCase location = Throw TypeError) ∧
  (is_Some (location !! js "Level") →
     from_option (Forall (λ c, is_surrogate c = false)) True
       (location !! js "ParentCode") →
     ∃ req, build_request toUpperCase location = Normal req) ∧
  build_request toUpperCase torn = Throw URIError.
Proof.
  split; [|split; [|split; [|apply build_request_torn]]].
  - intros e. rewrite build_request_parent.
    destruct (location !! js "Level") as [Level|]; [|intros [= <-]; by left].
    cbv zeta. destruct (parent_of location) as [p|] eqn:Hp; [|done].
    apply parent_of_Some in Hp as [Hp _].
    destruct (encodeURIComponent p) as [q|e'] eqn:Hq; [done|].
    intros [= <-]. destruct (encodeURIComponent_throws _ _ Hq) as [-> Hex].
    right. split; [done|]. split; [by eexists|]. by exists p.
  - intros Hlevel. unfold build_request. by rewrite Hlevel.
  - intros [Level HLevel] Hclean. rewrite build_request_parent, HLevel.
    cbv zeta. destruct (parent_of location) as [p|] eqn:Hp; [|by eexists].
    apply parent_of_Some in Hp as [Hp _]. rewrite Hp in Hclean.
    destruct (encodeURIComponent_succeeds p Hclean) as [q ->]. by eexists.
Qed.

(** X20.  The URL names the parent.  Two rows are posted to the same URL
    exactly when they name the same parent, a row without a ParentCode or
    with an empty one counting as naming none: encoding never maps two
    ParentCodes to one query string. *)
Theorem url_determines_parent (a b : row) (url_a url_b : jsstring)
    (body_a body_b : payload) :
  from_option code_units true (a !! js "ParentCode") = true →
  from_option code_units true (b !! js "ParentCode") = true →
  build_request toUpperCase a = Normal (url_a, body_a) →
  build_request toUpperCase b = Normal (url_b, body_b) →
  url_a = url_b ↔ parent_of a = parent_of b.
Proof.
  intros Ha Hb. rewrite !build_request_parent.
  destruct (a !! js "Level") as [La|]; [|done].
  destruct (b !! js "Level") as [Lb|]; [|done]. cbv zeta.
  destruct (parent_of a) as [pa|] eqn:Hpa, (parent_of b) as [pb|] eqn:Hpb.
  - apply parent_of_Some in Hpa as [Hpa _]. apply parent_of_Some in Hpb as [Hpb _].
    rewrite Hpa in Ha. rewrite Hpb in Hb.
    destruct (encodeURIComponent pa) as [qa|] eqn:Hqa; [|done].
    destruct (encodeURIComponent pb) as [qb|] eqn:Hqb; [|done].
    unfold cbind. intros [<- _]%Normal_pair_inv [<- _]%Normal_pair_inv. split.
    + intros Heq. do 3 apply app_inv_head in Heq. subst qb.
      f_equal. by apply (encodeURIComponent_inj pa pb qa).
    + intros [= ->]. by rewrite Hqa in Hqb; injection Hqb as ->.
  - destruct (encodeURIComponent pa) as [qa|]; [|done].
    unfold cbind. intros [<- _]%Normal_pair_inv [<- _]%Normal_pair_inv. split; [|done].
    intros Heq%(f_equal length). revert Heq.
    rewrite !length_app, query_length. lia.
  - destruct (encodeURIComponent pb) as [qb|]; [|done].
    unfold cbind. intros [<- _]%Normal_pair_inv [<- _]%Normal_pair_inv. split; [|done].
    intros Heq%(f_equal length). revert Heq.
    rewrite !length_app, query_length. lia.
  - by intros [<- _]%Normal_pair_inv [<- _]%Normal_pair_inv.
Qed.

End Request_more.

(** ** The further theorems at sample inputs *)

Lemma publish_stops_at_first_bad_row_witness :
  build_request toUpperCase_ascii_only blank = Throw TypeError ∧
  (publish toUpperCase_ascii_only always_rejects 0
     ([kigali] ++ blank :: [hamlet])).2 = Throw TypeError ∧
  Forall2 (λ location req,
             build_request toUpperCase_ascii_only location = Normal req)
    [kigali]
    (posts (publish toUpperCase_ascii_only always_rejects 0
              ([kigali] ++ blank :: [hamlet])).1) ∧
  (publish toUpperCase_ascii_only always_rejects 0
     ([kigali] ++ blank :: [hamlet])).1 =
    (publish toUpperCase_ascii_only always_rejects 0 [kigali]).1.
Proof.
  split; [reflexivity|].
  apply (publish_stops_at_first_bad_row toUpperCase_ascii_only always_rejects
           [kigali] blank [hamlet] TypeError).
  - intros j url body. reflexivity.
  - each_row ltac:(eexists; reflexivity).
  - reflexivity.
Defined.

Lemma requests_in_rank_order_witness :
  Forall (λ r, is_Some (r !! js "Level")) [gitega; nyarugenge; kigali] ∧
  ∀ i j reqi reqj,
    posts (populateLocations toUpperCase_ascii_only second_fails
             [gitega; nyarugenge; kigali]).1 !! i = Some reqi →
    posts (populateLocations toUpperCase_ascii_only second_fails
             [gitega; nyarugenge; kigali]).1 !! j = Some reqj →
    (i < j)%nat →
    indexOf locationTypesOrder (locationType reqi.2) ≤
    indexOf locationTypesOrder (locationType reqj.2).
Proof.
  assert (Forall (λ r, is_Some (r !! js "Level"))
            [gitega; nyarugenge; kigali]) as Hall.
  { each_row ltac:(eexists; reflexivity). }
  split; [exact Hall|].
  exact (requests_in_rank_order toUpperCase_ascii_only second_fails _ Hall).
Defined.

Lemma blank_parent_is_no_parent_witness :
  forallb is_whitespace (js "   ") = true ∧
  build_request toUpperCase_ascii_only (trim <$> padded) =
    Normal (API_BASE_URL ++ js "/saveLocation",
            {| locationCode := trim <$> padded !! js "LocationCode";
               locationType := toUpperCase_ascii_only (trim (js " province"));
               locationName := trim <$> padded !! js "LocationName" |}).
Proof.
  split; [reflexivity|].
  apply (blank_parent_is_no_parent toUpperCase_ascii_only padded
           (js " province") (js "   ")); reflexivity.
Defined.

Lemma rank_is_table_position_witness :
  ∃ k, level_index toUpperCase_ascii_only gitega = Normal k ∧
    ((k = -1 ∧ toUpperCase_ascii_only (js "sector") ∉ locationTypesOrder) ∨
     (0 ≤ k ≤ 4 ∧
      locationTypesOrder !! Z.to_nat k =
        Some (toUpperCase_ascii_only (js "sector")))).
Proof.
  apply (rank_is_table_position toUpperCase_ascii_only gitega (js "sector")).
  reflexivity.
Defined.

Lemma sequencer_is_the_stable_sort_witness :
  Forall (λ r, is_Some (r !! js "Level")) [gitega; nyarugenge; kigali; gasabo] ∧
  (sequencer toUpperCase_ascii_only [gitega; nyarugenge; kigali; gasabo] =
     Normal [kigali; nyarugenge; gasabo; gitega] ↔
   [kigali; nyarugenge; gasabo; gitega] ≡ₚ
     [gitega; nyarugenge; kigali; gasabo] ∧
   StronglySorted
     (λ a b, rank_key toUpperCase_ascii_only a ≤
             rank_key toUpperCase_ascii_only b)
     [kigali; nyarugenge; gasabo; gitega] ∧
   ∀ k, filter (λ r, level_index toUpperCase_ascii_only r = Normal k)
          [kigali; nyarugenge; gasabo; gitega] =
        filter (λ r, level_index toUpperCase_ascii_only r = Normal k)
          [gitega; nyarugenge; kigali; gasabo]).
Proof.
  assert (Forall (λ r, is_Some (r !! js "Level"))
            [gitega; nyarugenge; kigali; gasabo]) as Hall.
  { each_row ltac:(eexists; reflexivity). }
  split; [exact Hall|].
  exact (sequencer_is_the_stable_sort toUpperCase_ascii_only _ _ Hall).
Defined.

Lemma ordered_batch_unchanged_witness :
  sequencer toUpperCase_ascii_only [kigali; nyarugenge; gasabo; gitega] =
    Normal [kigali; nyarugenge; gasabo; gitega].
Proof.
  apply (ordered_batch_unchanged toUpperCase_ascii_only).
  - each_row ltac:(eexists; reflexivity).
  - repeat first [apply Sorted_cons | apply Sorted_nil
                 | apply HdRel_cons | apply HdRel_nil]; by vm_compute.
Defined.

Lemma no_level_column_sends_nothing_witness :
  Forall (λ r : row, r !! js "Level" = None) misnamed ∧
  posts (main toUpperCase_ascii_only (Ends misnamed) always_rejects).1 = [] ∧
  last (main toUpperCase_ascii_only (Ends misnamed) always_rejects).1 =
    Some (Console (ErrFailed TypeError)).
Proof.
  assert (Forall (λ r : row, r !! js "Level" = None) misnamed) as Hall.
  { unfold misnamed. each_row ltac:(reflexivity). }
  split; [exact Hall|]. unfold misnamed in *.
  destruct (no_level_column_sends_nothing toUpperCase_ascii_only _ _
              always_rejects Hall) as (_ & _ & Hposts & Hlast).
  split; [exact Hposts|exact Hlast].
Defined.

Lemma query_is_url_safe_witness :
  ∃ q, encodeURIComponent (js "RW01") = Normal q ∧
    js "http://localhost:8081/api/hec/location/saveLocation?parentCode=RW01" =
      API_BASE_URL ++ js "/saveLocation" ++ js "?parentCode=" ++ q ∧
    Forall (λ c, unescaped c = true ∨ c = 0x25%N) q ∧
    Forall (λ c, c ∉ js "&=?#/+ :;@,$") q.
Proof.
  apply (query_is_url_safe toUpperCase_ascii_only nyarugenge
           (js "http://localhost:8081/api/hec/location/saveLocation?parentCode=RW01")
           {| locationCode := Some (js "RW0101");
              locationType := js "DISTRICT";
              locationName := Some (js "Nyarugenge") |}); reflexivity.
Defined.

Lemma url_determines_parent_witness :
  js "http://localhost:8081/api/hec/location/saveLocation?parentCode=RW01" =
  js "http://localhost:8081/api/hec/location/saveLocation?parentCode=RW0101" ↔
  parent_of nyarugenge = parent_of gitega.
Proof.
  apply (url_determines_parent toUpperCase_ascii_only nyarugenge gitega _ _
           {| locationCode := Some (js "RW0101");
              locationType := js "DISTRICT";
              locationName := Some (js "Nyarugenge") |}
           {| locationCode := Some (js "RW010101");
              locationType := js "SECTOR";
              locationName := Some (js "Gitega") |}); reflexivity.
Defined.
